(** * Provider deduplication: a shallow embedding of [dedupe_providers.py]

    The development follows the source file top to bottom: the
    normalisation helpers, the similarity helpers, the union-find class
    [UF], and the batch function [dedupe].

    Modelling conventions.
    - A Python [str] is a Rocq [string]; the character-level functions work on
      [list ascii].  The model covers the ASCII range: for a code point above
      127 Python consults the Unicode tables (case mapping, [\w], [\s]), which
      are not part of this development, so such characters are kept as opaque
      symbols that are neither letters, digits nor white space.
    - A Python [float] score is an exact rational of [Q]; equalities between
      scores are [Qeq].  The rounding of the binary64 operations is not
      modelled: a sum of the program may differ from the exact one in its
      last place (0.7999999999999998 for 3.0 + 1.0 + 0.8 - 4.0), so an
      equation on a score is one of exact arithmetic.
    - [difflib.SequenceMatcher(None, a, b).ratio()] belongs to the Python
      standard library; it is a parameter of the scoring section.
    - A Python exception is a value [Raise] of the error monad [exc]; a
      statement sequence without [try] threads it with [bind].
    - The data frame is a list of rows with the default [RangeIndex], as
      produced by [pd.read_csv] in the callers: index labels are the
      positions [0 .. n-1]. *)

From Stdlib Require Import Ascii String QArith Lia Lqa.
From stdpp Require Import base tactics option list sorting gmap strings.

(** ** Characters *)

Module Char.

Definition code (c : ascii) : N := N_of_ascii c.

Definition between (lo hi : N) (c : ascii) : bool :=
  ((lo <=? code c) && (code c <=? hi))%N.

Definition is_lower : ascii → bool := between 97 122.
Definition is_upper : ascii → bool := between 65 90.
Definition is_digit : ascii → bool := between 48 57.

(** [str.isspace] on the ASCII range: TAB, LF, VT, FF, CR, the four
    separators FS, GS, RS, US, and SPACE.  The same table is used by
    [str.strip()] and by the class [\s] of a [str] pattern. *)
Definition is_space (c : ascii) : bool :=
  between 9 13 c || between 28 31 c || (code c =? 32)%N.

(** The class [\w] of a [str] pattern on the ASCII range. *)
Definition is_word (c : ascii) : bool :=
  is_lower c || is_upper c || is_digit c || (code c =? 95)%N.

Definition lower (c : ascii) : ascii :=
  if is_upper c then ascii_of_N (code c + 32) else c.

Definition upper (c : ascii) : ascii :=
  if is_lower c then ascii_of_N (code c - 32) else c.

(** The class [[a-z0-9]]. *)
Definition is_alnum_lc (c : ascii) : bool := is_lower c || is_digit c.

End Char.

(** ** String primitives of Python used by the source *)

Module Py.

Fixpoint lstrip (s : list ascii) : list ascii :=
  match s with
  | [] => []
  | c :: r => if Char.is_space c then lstrip r else s
  end.

Fixpoint rstrip (s : list ascii) : list ascii :=
  match s with
  | [] => []
  | c :: r =>
      match rstrip r with
      | [] => if Char.is_space c then [] else [c]
      | r' => c :: r'
      end
  end.

(** [s.strip()] *)
Definition strip (s : list ascii) : list ascii := rstrip (lstrip s).

(** [s.lower()], [s.upper()] *)
Definition lower (s : list ascii) : list ascii := map Char.lower s.
Definition upper (s : list ascii) : list ascii := map Char.upper s.

(** [re.sub(cls, ' ', s)] for a one-character class [cls]. *)
Definition sub_class (cls : ascii → bool) (s : list ascii) : list ascii :=
  map (fun c => if cls c then " "%char else c) s.

(** [re.sub(cls, '', s)] for a one-character class [cls]. *)
Definition del_class (cls : ascii → bool) (s : list ascii) : list ascii :=
  List.filter (fun c => negb (cls c)) s.

(** [re.sub(r'\s+', ' ', s)]: [in_run] tells that the previous character
    belonged to the white-space run being replaced. *)
Fixpoint sub_ws (in_run : bool) (s : list ascii) : list ascii :=
  match s with
  | [] => []
  | c :: r =>
      if Char.is_space c
      then (if in_run then sub_ws true r else " "%char :: sub_ws true r)
      else c :: sub_ws false r
  end.

(** [re.split(r'\s+', s)]: the pieces between the white-space runs, the
    empty pieces at both ends included. *)
Fixpoint split_ws (in_run : bool) (s : list ascii) : list (list ascii) :=
  match s with
  | [] => [[]]
  | c :: r =>
      if Char.is_space c
      then (if in_run then split_ws true r else [] :: split_ws true r)
      else match split_ws false r with
           | t :: ts => (c :: t) :: ts
           | [] => [[c]]
           end
  end.

(** The assertion [\b] between two neighbouring positions; [None] is the
    outside of the string. *)
Definition is_word_opt (c : option ascii) : bool :=
  match c with Some c => Char.is_word c | None => false end.

Definition boundary (prev next : option ascii) : bool :=
  xorb (is_word_opt prev) (is_word_opt next).

Fixpoint prefix_rest (p s : list ascii) : option (list ascii) :=
  match p, s with
  | [], _ => Some s
  | _ :: _, [] => None
  | a :: p', b :: s' => if Ascii.eqb a b then prefix_rest p' s' else None
  end.

Definition last_opt (p : list ascii) : option ascii := last p.

(** The group [(p1|p2|...)\b] tried at the head of [s]: the alternatives
    are tried in order, and an alternative whose text matches but is not
    followed by a boundary is abandoned for the next one.  The result is
    the length of the match. *)
Fixpoint match_alt (alts : list (list ascii)) (s : list ascii) : option nat :=
  match alts with
  | [] => None
  | p :: alts' =>
      match prefix_rest p s with
      | Some rest =>
          if boundary (last_opt p) (head rest) then Some (length p)
          else match_alt alts' s
      | None => match_alt alts' s
      end
  end.

(** [re.sub(r'\b(p1|p2|...)\b', '', s)]: a left-to-right scan; [prev] is
    the character before the current position, and [skip] counts the
    characters of the current match that are still to be dropped. *)
Fixpoint del_words (alts : list (list ascii)) (prev : option ascii)
    (skip : nat) (s : list ascii) : list ascii :=
  match s with
  | [] => []
  | c :: r =>
      match skip with
      | S k => del_words alts (Some c) k r
      | O =>
          if boundary prev (Some c) then
            match match_alt alts s with
            | Some (S k) => del_words alts (Some c) k r
            | _ => c :: del_words alts (Some c) 0 r
            end
          else c :: del_words alts (Some c) 0 r
      end
  end.

End Py.

(** ** Helpers: normalization *)

Definition chars (s : string) : list ascii := list_ascii_of_string s.
Definition str (l : list ascii) : string := string_of_list_ascii l.

Definition honorifics : list (list ascii) :=
  map chars ["dr"; "md"; "do"; "prof"; "mr"; "mrs"; "ms"; "jr"; "sr"; "ii"; "iii"].

Definition is_dot_comma (c : ascii) : bool :=
  Ascii.eqb c "."%char || Ascii.eqb c ","%char.

Definition not_alnum_space (c : ascii) : bool :=
  negb (Char.is_alnum_lc c || Char.is_space c).

Definition normalize_name_chars (s : list ascii) : list ascii :=
  let s := Py.strip (Py.lower s) in
  let s := Py.sub_class is_dot_comma s in
  let s := Py.del_words honorifics None 0 s in
  let s := Py.sub_class not_alnum_space s in
  Py.strip (Py.sub_ws false s).

Definition normalize_name (s : string) : string :=
  str (normalize_name_chars (chars s)).

Definition normalize_phone (s : string) : string :=
  str (Py.del_class (fun c => negb (Char.is_digit c)) (chars s)).

Definition name_tokens_chars (s : list ascii) : list (list ascii) :=
  List.filter (fun t => negb (Nat.eqb (length t) 0)) (Py.split_ws false s).

Definition name_tokens (s : string) : list string :=
  map str (name_tokens_chars (chars s)).

Definition last_name_prefix (s : string) (n : nat) : string :=
  match last (name_tokens_chars (chars s)) with
  | Some t => str (take n t)
  | None => ""
  end.

Definition phone_last4 (s : string) : string :=
  let l := chars s in
  if (4 <=? length l)%nat then str (drop (length l - 4) l) else "".


(** ** Similarity helpers *)

(** Python exceptions. *)
Inductive exc (A : Type) : Type :=
  | Ok (a : A)
  | Raise (e : string).
Arguments Ok {A} a.
Arguments Raise {A} e.

Global Instance exc_ret : MRet exc := fun A a => Ok a.
Global Instance exc_bind : MBind exc := fun A B f m =>
  match m with
  | Ok a => f a
  | Raise e => Raise e
  end.

(** Truth value of a [str]: non-empty. *)
Definition truthy (s : string) : bool := negb (String.eqb s "").

(** [len(inter)/len(uni)], a quotient of two set sizes. *)
Definition ratio_of_sizes (a b : nat) : Q := Z.of_nat a # Pos.of_nat b.

Definition token_overlap (a b : string) : Q :=
  let sa : gset string := list_to_set (name_tokens a) in
  let sb : gset string := list_to_set (name_tokens b) in
  if decide (sa = ∅ ∧ sb = ∅) then 1%Q
  else
    let inter := sa ∩ sb in
    let uni := sa ∪ sb in
    if decide (uni = ∅) then 0%Q else ratio_of_sizes (size inter) (size uni).

(** [round(x, 3)]: to the nearest multiple of 1/1000, ties to even. *)
Definition round3 (x : Q) : Q :=
  let n := (Qnum x * 1000)%Z in
  let d := Z.pos (Qden x) in
  let q := (n / d)%Z in
  let r := (n mod d)%Z in
  let up :=
    match (2 * r ?= d)%Z with
    | Lt => false
    | Gt => true
    | Eq => Z.odd q
    end in
  ((if up then q + 1 else q)%Z # 1000).

(** [difflib.SequenceMatcher(None, a, b).ratio()], after [difflib.py] of the
    Python standard library.  The scoring code below takes the ratio as a
    parameter; this definition instantiates the parameter on concrete
    inputs. *)
Module Difflib.

Section Matcher.

Variables a b : list ascii.

(** [__chain_b]: with [autojunk] and at least 200 elements, an element
    of [b] occurring more than [n // 100 + 1] times is left out of the
    index [b2j]. *)
Definition popular (c : ascii) : bool :=
  (200 <=? length b)%nat
  && (length b / 100 + 1 <? count_occ ascii_dec b c)%nat.

(** The entry [j2len[j]] of row [i]: the length of the run of equal
    indexed elements that ends at [a[i]], [b[j]] inside the window. *)
Fixpoint run_len (alo blo : nat) (fuel i j : nat) : nat :=
  match fuel with
  | O => O
  | S fuel' =>
      match a !! i, b !! j with
      | Some x, Some y =>
          if Ascii.eqb x y && negb (popular y)
             && (alo <=? i)%nat && (blo <=? j)%nat
          then S (match i, j with
                  | S i', S j' => run_len alo blo fuel' i' j'
                  | _, _ => O
                  end)
          else O
      | _, _ => O
      end
  end.

Definition best_step (alo blo : nat) (best : nat * nat * nat) (ij : nat * nat)
    : nat * nat * nat :=
  let k := run_len alo blo (S ij.1) ij.1 ij.2 in
  if (best.2 <? k)%nat then (S ij.1 - k, S ij.2 - k, k) else best.

Fixpoint extend_left (fuel alo blo : nat) (best : nat * nat * nat)
    : nat * nat * nat :=
  match fuel, best with
  | S fuel', (S i, S j, k) =>
      if (alo <=? i)%nat && (blo <=? j)%nat
         && bool_decide (is_Some (a !! i) ∧ a !! i = b !! j)
      then extend_left fuel' alo blo (i, j, S k)
      else best
  | _, _ => best
  end.

Fixpoint extend_right (fuel ahi bhi : nat) (best : nat * nat * nat)
    : nat * nat * nat :=
  match fuel, best with
  | S fuel', (i, j, k) =>
      if (i + k <? ahi)%nat && (j + k <? bhi)%nat
         && bool_decide (is_Some (a !! (i + k)) ∧ a !! (i + k) = b !! (j + k))
      then extend_right fuel' ahi bhi (i, j, S k)
      else best
  | _, _ => best
  end.

Definition find_longest_match (alo ahi blo bhi : nat) : nat * nat * nat :=
  let window :=
    i ← seq alo (ahi - alo); j ← seq blo (bhi - blo); [(i, j)] in
  let best := foldl (best_step alo blo) (alo, blo, O) window in
  let best := extend_left (length a) alo blo best in
  extend_right (length a) ahi bhi best.

(** The sum of the sizes of [get_matching_blocks()]. *)
Fixpoint matches (fuel alo ahi blo bhi : nat) : nat :=
  match fuel with
  | O => O
  | S fuel' =>
      let '(i, j, k) := find_longest_match alo ahi blo bhi in
      if (k =? 0)%nat then O
      else
        k
        + (if (alo <? i)%nat && (blo <? j)%nat
           then matches fuel' alo i blo j else O)
        + (if (i + k <? ahi)%nat && (j + k <? bhi)%nat
           then matches fuel' (i + k) ahi (j + k) bhi else O)
  end.

Definition ratio_chars : Q :=
  let length := (length a + length b)%nat in
  if (length =? 0)%nat then 1%Q
  else Qred (2 * Z.of_nat (matches (S (List.length a)) 0 (List.length a) 0 (List.length b))
             # Pos.of_nat length).

End Matcher.

Definition ratio (a b : string) : exc Q := Ok (ratio_chars (chars a) (chars b)).

End Difflib.

(** ** The record table *)

Record Provider := mkProvider {
  provider_id : string;
  full_name : string;
  npi : string;
  license_number : string;
  license_state : string;
  practice_phone : string;
  practice_address_line1 : string;
  practice_city : string;
  practice_state : string;
  practice_zip : string;
  taxonomy_code : string
}.

(** A row of [roster] after the derived columns have been added; the column
    ['phone_last4'] is the field [phone_last4_col]. *)
Record Row := mkRow {
  raw : Provider;
  name_norm : string;
  npi_norm : string;
  license_norm : string;
  license_state_norm : string;
  phone_norm : string;
  phone_last4_col : string;
  last_pref : string;
  tax_norm : string;
  addr_norm : string
}.

Definition str_strip (s : string) : string := str (Py.strip (chars s)).
Definition str_strip_upper (s : string) : string :=
  str (Py.upper (Py.strip (chars s))).

Definition normalize_address (line1 city state zip : string) : string :=
  let x := line1 +:+ " " +:+ city +:+ " " +:+ state +:+ " " +:+ zip in
  let x := Py.sub_class not_alnum_space (Py.lower (chars x)) in
  str (Py.strip (Py.sub_ws false x)).

Definition normalize_row (r : Provider) : Row :=
  let name := normalize_name (full_name r) in
  let phone := normalize_phone (practice_phone r) in
  {| raw := r;
     name_norm := name;
     npi_norm := str_strip (npi r);
     license_norm := str_strip_upper (license_number r);
     license_state_norm := str_strip_upper (license_state r);
     phone_norm := phone;
     phone_last4_col := phone_last4 phone;
     last_pref := last_name_prefix name 4;
     tax_norm := str_strip_upper (taxonomy_code r);
     addr_norm :=
       normalize_address (practice_address_line1 r) (practice_city r)
         (practice_state r) (practice_zip r) |}.

(** ** Blocking *)

Definition neq_nan (s : string) : bool := negb (String.eqb s "nan").

(** The keys under which a row is appended to [blocks], in the order of the
    five [if] statements of the loop. *)
Definition block_keys (r : Row) : list string :=
  (if truthy (npi_norm r) && neq_nan (npi_norm r)
   then ["NPI::" +:+ npi_norm r] else []) ++
  (if truthy (license_norm r) && truthy (license_state_norm r)
      && neq_nan (license_norm r)
   then ["LIC::" +:+ license_state_norm r +:+ "::" +:+ license_norm r] else []) ++
  (if truthy (last_pref r) then ["LNP::" +:+ last_pref r] else []) ++
  (if truthy (phone_last4_col r) then ["PH4::" +:+ phone_last4_col r] else []) ++
  (if truthy (tax_norm r) then ["TAX::" +:+ tax_norm r] else []).

(** [blocks[k].append(i)] on a [defaultdict(list)]. *)
Definition block_append (i : nat) (blocks : gmap string (list nat)) (k : string)
    : gmap string (list nat) :=
  <[k := default [] (blocks !! k) ++ [i]]> blocks.

Fixpoint build_blocks (i : nat) (rows : list Row) (blocks : gmap string (list nat))
    : gmap string (list nat) :=
  match rows with
  | [] => blocks
  | r :: rows' => build_blocks (S i) rows' (foldl (block_append i) blocks (block_keys r))
  end.

(** [sorted(set(v))] *)
Definition sorted_set (v : list nat) : list nat :=
  merge_sort Nat.le (remove_dups v).

(** [combinations(l, 2)] *)
Fixpoint combinations2 (l : list nat) : list (nat * nat) :=
  match l with
  | [] => []
  | a :: r => map (pair a) r ++ combinations2 r
  end.

Definition block_pairs (v : list nat) : list (nat * nat) :=
  if (1 <? length v)%nat then combinations2 (sorted_set v) else [].

Definition candidate_pairs (blocks : gmap string (list nat)) : gset (nat * nat) :=
  foldr (fun kv acc => list_to_set (block_pairs kv.2) ∪ acc) ∅ (map_to_list blocks).

(** ** Scoring *)

Record PairRow := mkPairRow {
  idx_a : nat;
  idx_b : nat;
  score : Q;
  name_sim : Q;
  tok_ov : Q;
  addr_ov : Q;
  reasons : list string
}.

(** The running sum [score] of the loop body, given the outcome of the five
    tests and the three similarity values. *)
Definition accumulate (npi_eq lic_eq ph4_eq tax_eq npi_conflict : bool)
    (name_sim tok_ov addr_ov : Q) : Q :=
  let score := 0%Q in
  let score := if npi_eq then (score + 6)%Q else score in
  let score := if lic_eq then (score + 5)%Q else score in
  let score := (score + name_sim * 3)%Q in
  let score := (score + tok_ov * 1)%Q in
  let score := if ph4_eq then (score + 1.5)%Q else score in
  let score := (score + addr_ov * 0.8)%Q in
  let score := if tax_eq then (score + 0.6)%Q else score in
  if npi_conflict then (score - 4)%Q else score.

Definition both_eq (a b : string) : bool :=
  truthy a && truthy b && String.eqb a b.

Definition npi_eq (ra rb : Row) : bool := both_eq (npi_norm ra) (npi_norm rb).

Definition lic_eq (ra rb : Row) : bool :=
  truthy (license_norm ra) && truthy (license_norm rb)
  && truthy (license_state_norm ra) && truthy (license_state_norm rb)
  && String.eqb (license_state_norm ra) (license_state_norm rb)
  && String.eqb (license_norm ra) (license_norm rb).

Definition ph4_eq (ra rb : Row) : bool :=
  both_eq (phone_last4_col ra) (phone_last4_col rb).

Definition tax_eq (ra rb : Row) : bool := both_eq (tax_norm ra) (tax_norm rb).

Definition npi_conflict (ra rb : Row) : bool :=
  truthy (npi_norm ra) && truthy (npi_norm rb)
  && negb (String.eqb (npi_norm ra) (npi_norm rb))
  && neq_nan (npi_norm ra) && neq_nan (npi_norm rb).

Definition pair_reasons (ra rb : Row) : list string :=
  (if npi_eq ra rb then ["npi_eq"] else []) ++
  (if lic_eq ra rb then ["lic_eq"] else []) ++
  (if ph4_eq ra rb then ["ph4_eq"] else []) ++
  (if npi_conflict ra rb then ["npi_conflict"] else []).

Definition classify (threshold_definite threshold_possible s : Q) : string :=
  if Qle_bool threshold_definite s then "definite"
  else if Qle_bool threshold_possible s then "possible"
  else "nonmatch".

Section Scoring.

(** [SequenceMatcher(None, a, b).ratio()] of [difflib]. *)
Variable SequenceMatcher_ratio : string → string → exc Q.

Definition seq_ratio (a b : string) : exc Q :=
  if negb (truthy a) && negb (truthy b) then Ok 1%Q
  else SequenceMatcher_ratio a b.

(** The body of the loop [for a,b in candidates]. *)
Definition score_pair (a b : nat) (ra rb : Row) : exc PairRow :=
  name_sim ← seq_ratio (name_norm ra) (name_norm rb);
  let tok_ov := token_overlap (name_norm ra) (name_norm rb) in
  let addr_ov := token_overlap (addr_norm ra) (addr_norm rb) in
  let score :=
    accumulate (npi_eq ra rb) (lic_eq ra rb) (ph4_eq ra rb) (tax_eq ra rb)
      (npi_conflict ra rb) name_sim tok_ov addr_ov in
  mret {| idx_a := a; idx_b := b; score := score;
          name_sim := round3 name_sim; tok_ov := round3 tok_ov;
          addr_ov := round3 addr_ov; reasons := pair_reasons ra rb |}.

End Scoring.

(** ** Union-Find for clustering *)

Module UF.

(** [self.p = list(range(n))] *)
Definition init (n : nat) : list nat := seq 0 n.

(** [find] reads [self.p[x]], recurses on the parent when [x] is not its
    own parent and stores the result in [self.p[x]] (path compression).
    The recursion of the source is not structural: [fuel] bounds its
    depth, and [None] stands for an index out of range or for a recursion
    deeper than [fuel]. *)
Fixpoint find (fuel : nat) (p : list nat) (x : nat) : option (list nat * nat) :=
  match fuel with
  | O => None
  | S fuel' =>
      px ← p !! x;
      if decide (px = x) then Some (p, x)
      else '(p', r) ← find fuel' p px; Some (<[x := r]> p', r)
  end.

Definition union (fuel : nat) (p : list nat) (a b : nat) : option (list nat) :=
  '(p1, ra) ← find fuel p a;
  '(p2, rb) ← find fuel p1 b;
  Some (if decide (ra = rb) then p2 else <[rb := ra]> p2).

End UF.

(** ** Core dedupe function *)

Definition from_option_exc {A} (e : string) (o : option A) : exc A :=
  match o with Some a => Ok a | None => Raise e end.

(** [sort_values('score', ascending=False)] *)
Definition score_ge (x y : PairRow) : Prop := Qle_bool (score y) (score x) = true.

Global Instance score_ge_dec : RelDecision score_ge.
Proof. intros x y. unfold score_ge. apply _. Defined.

(** The depth allowed to [find] on a parent array [p]. *)
Definition find_fuel (p : list nat) : nat := S (length p).

(** The loop [for _,row in pairs_df[match_class=='definite'].iterrows()]. *)
Fixpoint union_all (p : list nat) (pairs : list (nat * nat)) : option (list nat) :=
  match pairs with
  | [] => Some p
  | (a, b) :: pairs' => p' ← UF.union (find_fuel p) p a b; union_all p' pairs'
  end.

(** [clusters[uf.find(i)].append(idx[i])] on a [defaultdict(list)]. *)
Definition cluster_append (i r : nat) (clusters : gmap nat (list nat))
    : gmap nat (list nat) :=
  <[r := default [] (clusters !! r) ++ [i]]> clusters.

Fixpoint build_clusters (p : list nat) (idx : list nat) (clusters : gmap nat (list nat))
    : option (list nat * gmap nat (list nat)) :=
  match idx with
  | [] => Some (p, clusters)
  | i :: idx' =>
      '(p', r) ← UF.find (find_fuel p) p i;
      build_clusters p' idx' (cluster_append i r clusters)
  end.

(** Lines 118-126: the clusters of the definite pairs over [n] records. *)
Definition cluster_definite (n : nat) (pairs : list (nat * nat))
    : option (gmap nat (list nat)) :=
  p ← union_all (UF.init n) pairs;
  '(_, clusters) ← build_clusters p (seq 0 n) ∅;
  Some clusters.

(** [sorted(cand_ids)[0]]; the list is never empty where it is used. *)
Definition canonical_id (cand_ids : list string) : string :=
  default "" (head (merge_sort String.le cand_ids)).

Section Mapping.

(** [roster.loc[m]['provider_id']] *)
Variable pid : nat → string.

(** One round of the loop [for root, members in clusters.items()]. *)
Definition assign_members (members : list nat) (record_to_cluster : gmap nat string)
    : gmap nat string :=
  if decide (length members = 1) then
    match members with
    | m :: _ => <[m := pid m]> record_to_cluster
    | [] => record_to_cluster
    end
  else
    let canonical := canonical_id (map pid members) in
    foldl (fun acc m => <[m := canonical]> acc) record_to_cluster members.

Definition fill_missing (idx : list nat) (record_to_cluster : gmap nat string)
    : gmap nat string :=
  foldl (fun acc i => match acc !! i with
                      | Some _ => acc
                      | None => <[i := pid i]> acc
                      end) record_to_cluster idx.

(** Lines 128-141: the column [dedup_cluster_id]. *)
Definition dedup_cluster_ids (n : nat) (clusters : gmap nat (list nat)) : list string :=
  let record_to_cluster :=
    foldr (fun kv acc => assign_members kv.2 acc) ∅ (map_to_list clusters) in
  let record_to_cluster := fill_missing (seq 0 n) record_to_cluster in
  map (fun x => default (pid x) (record_to_cluster !! x)) (seq 0 n).

End Mapping.

Record Output := mkOutput {
  pairs_df : list (PairRow * string);
  roster_out : list (Row * string);
  multi : list (list nat)
}.

Definition is_definite (row : PairRow * string) : bool := String.eqb row.2 "definite".

Definition definite_pairs (pairs : list (PairRow * string)) : list (nat * nat) :=
  map (fun row => (idx_a row.1, idx_b row.1)) (List.filter is_definite pairs).

Definition row_pid (roster : list Row) (i : nat) : string :=
  default "" (provider_id ∘ raw <$> roster !! i).

Section Dedupe.

Variable SequenceMatcher_ratio : string → string → exc Q.

(** The loop [for a,b in candidates]: an exception raised by the body
    leaves the loop and the function, there is no handler. *)
Fixpoint score_pairs (roster : list Row) (cands : list (nat * nat))
    : exc (list PairRow) :=
  match cands with
  | [] => Ok []
  | (a, b) :: cands' =>
      ra ← from_option_exc "KeyError" (roster !! a);
      rb ← from_option_exc "KeyError" (roster !! b);
      row ← score_pair SequenceMatcher_ratio a b ra rb;
      rows ← score_pairs roster cands';
      mret (row :: rows)
  end.

(** [pd.DataFrame(pair_data).sort_values('score', ascending=False)]: a
    frame built from an empty list has no column ['score']. *)
Definition sort_pairs (pair_data : list PairRow) : exc (list PairRow) :=
  match pair_data with
  | [] => Raise "KeyError: 'score'"
  | _ => Ok (merge_sort score_ge pair_data)
  end.

Definition dedupe (roster_df : list Provider)
    (threshold_definite threshold_possible : Q) : exc Output :=
  let roster := map normalize_row roster_df in
  let n := length roster in
  let blocks := build_blocks 0 roster ∅ in
  let candidates := candidate_pairs blocks in
  pair_data ← score_pairs roster (elements candidates);
  sorted ← sort_pairs pair_data;
  let pairs :=
    map (fun r => (r, classify threshold_definite threshold_possible (score r)))
      sorted in
  clusters ← from_option_exc "RecursionError"
               (cluster_definite n (definite_pairs pairs));
  let ids := dedup_cluster_ids (row_pid roster) n clusters in
  mret {| pairs_df := pairs;
          roster_out := zip roster ids;
          multi := List.filter (fun c => (1 <? length c)%nat)
                     (map snd (map_to_list clusters)) |}.

End Dedupe.

(** * Properties *)

(** ** The scoring arithmetic *)

Lemma ratio_of_sizes_same n : (0 < n)%nat → (ratio_of_sizes n n == 1)%Q.
Proof.
  intros Hn. unfold ratio_of_sizes, Qeq. simpl.
  rewrite Z.mul_1_r, Z.mul_1_l.
  lia.
Qed.

Lemma ratio_of_sizes_nonneg a b : (0 <= ratio_of_sizes a b)%Q.
Proof. unfold ratio_of_sizes, Qle. simpl. lia. Qed.

Lemma token_overlap_nonneg a b : (0 <= token_overlap a b)%Q.
Proof.
  unfold token_overlap. repeat case_decide; try done.
  apply ratio_of_sizes_nonneg.
Qed.

Lemma token_overlap_same_set a b :
  list_to_set (C := gset string) (name_tokens a) = list_to_set (name_tokens b) →
  (token_overlap a b == 1)%Q.
Proof.
  intros Hset. unfold token_overlap. rewrite Hset.
  set (sb := list_to_set (name_tokens b) : gset string).
  case_decide as Hempty; [done|].
  case_decide as Huni.
  - exfalso. apply Hempty. split; set_solver.
  - replace (sb ∩ sb) with sb by set_solver.
    replace (sb ∪ sb) with sb by set_solver.
    apply ratio_of_sizes_same.
    destruct (decide (size sb = 0)) as [Hz|]; [|lia].
    apply size_empty_inv in Hz. exfalso. apply Hempty. split; set_solver.
Qed.

Lemma token_overlap_refl a : (token_overlap a a == 1)%Q.
Proof. by apply token_overlap_same_set. Qed.

Lemma truthy_true s : truthy s = true ↔ s ≠ "".
Proof.
  unfold truthy. destruct (String.eqb_spec s ""); split; naive_solver.
Qed.

Lemma truthy_false s : truthy s = false ↔ s = "".
Proof.
  unfold truthy. destruct (String.eqb_spec s ""); split; naive_solver.
Qed.

Lemma both_eq_true a b : both_eq a b = true ↔ a ≠ "" ∧ a = b.
Proof.
  unfold both_eq. rewrite !andb_true_iff, !truthy_true, String.eqb_eq.
  naive_solver.
Qed.

Lemma both_eq_empty_l a b : a = "" → both_eq a b = false.
Proof. by intros ->. Qed.

Lemma both_eq_empty_r a b : b = "" → both_eq a b = false.
Proof. intros ->. unfold both_eq. simpl. by rewrite andb_false_r. Qed.

Lemma seq_ratio_nonempty R a b : a ≠ "" → seq_ratio R a b = R a b.
Proof.
  intros Ha. unfold seq_ratio.
  apply truthy_true in Ha. by rewrite Ha.
Qed.

Lemma seq_ratio_empty R : seq_ratio R "" "" = Ok 1%Q.
Proof. done. Qed.

Lemma score_pair_ok R a b ra rb q :
  seq_ratio R (name_norm ra) (name_norm rb) = Ok q →
  score_pair R a b ra rb =
    Ok {| idx_a := a; idx_b := b;
          score := accumulate (npi_eq ra rb) (lic_eq ra rb) (ph4_eq ra rb)
                     (tax_eq ra rb) (npi_conflict ra rb) q
                     (token_overlap (name_norm ra) (name_norm rb))
                     (token_overlap (addr_norm ra) (addr_norm rb));
          name_sim := round3 q;
          tok_ov := round3 (token_overlap (name_norm ra) (name_norm rb));
          addr_ov := round3 (token_overlap (addr_norm ra) (addr_norm rb));
          reasons := pair_reasons ra rb |}.
Proof. intros Hq. unfold score_pair. by rewrite Hq. Qed.

Lemma score_pair_raise R a b ra rb e :
  seq_ratio R (name_norm ra) (name_norm rb) = Raise e →
  score_pair R a b ra rb = Raise e.
Proof. intros Hq. unfold score_pair. by rewrite Hq. Qed.

Lemma score_pair_inv R a b ra rb row :
  score_pair R a b ra rb = Ok row →
  ∃ q, seq_ratio R (name_norm ra) (name_norm rb) = Ok q ∧
       idx_a row = a ∧ idx_b row = b ∧
       score row =
         accumulate (npi_eq ra rb) (lic_eq ra rb) (ph4_eq ra rb) (tax_eq ra rb)
           (npi_conflict ra rb) q
           (token_overlap (name_norm ra) (name_norm rb))
           (token_overlap (addr_norm ra) (addr_norm rb)) ∧
       reasons row = pair_reasons ra rb.
Proof.
  intros Hrow.
  destruct (seq_ratio R (name_norm ra) (name_norm rb)) as [q|e] eqn:Hq.
  - rewrite (score_pair_ok _ _ _ _ _ _ Hq) in Hrow. exists q. by simplify_eq.
  - by rewrite (score_pair_raise _ _ _ _ _ _ Hq) in Hrow.
Qed.

Lemma classify_definite td tp s : (td <= s)%Q → classify td tp s = "definite".
Proof. intros H. unfold classify. apply Qle_bool_iff in H. by rewrite H. Qed.

Lemma classify_nonmatch td tp s :
  (s < td)%Q → (s < tp)%Q → classify td tp s = "nonmatch".
Proof.
  intros H1 H2. unfold classify.
  destruct (Qle_bool td s) eqn:E1; [apply Qle_bool_iff in E1; lra|].
  destruct (Qle_bool tp s) eqn:E2; [apply Qle_bool_iff in E2; lra|]. done.
Qed.

(** C8.  The total score is monotone in every positive signal: with the
    NPI-conflict test held fixed, raising the name similarity, the name token
    overlap or the address token overlap, or switching an equality bonus on,
    never lowers the accumulated score. *)
Theorem accumulate_monotone
    (npi_eq1 lic_eq1 ph4_eq1 tax_eq1 npi_eq2 lic_eq2 ph4_eq2 tax_eq2 conflict : bool)
    (name_sim1 tok_ov1 addr_ov1 name_sim2 tok_ov2 addr_ov2 : Q) :
  (npi_eq1 = true → npi_eq2 = true) →
  (lic_eq1 = true → lic_eq2 = true) →
  (ph4_eq1 = true → ph4_eq2 = true) →
  (tax_eq1 = true → tax_eq2 = true) →
  (name_sim1 <= name_sim2)%Q →
  (tok_ov1 <= tok_ov2)%Q →
  (addr_ov1 <= addr_ov2)%Q →
  (accumulate npi_eq1 lic_eq1 ph4_eq1 tax_eq1 conflict name_sim1 tok_ov1 addr_ov1
   <= accumulate npi_eq2 lic_eq2 ph4_eq2 tax_eq2 conflict name_sim2 tok_ov2 addr_ov2)%Q.
Proof.
  intros Hn Hl Hp Ht Hs Ho Ha. unfold accumulate.
  destruct npi_eq1, npi_eq2; try (by discriminate Hn);
  destruct lic_eq1, lic_eq2; try (by discriminate Hl);
  destruct ph4_eq1, ph4_eq2; try (by discriminate Hp);
  destruct tax_eq1, tax_eq2; try (by discriminate Ht);
  destruct conflict; lra.
Qed.

Lemma accumulate_monotone_witness :
  (accumulate false true false false true 0 (1#2) 0
   <= accumulate true true false true true (1#3) (1#2) 1)%Q.
Proof.
  apply accumulate_monotone; try done; try (intros; reflexivity); unfold Qle; simpl; lia.
Defined.

(** ** Concrete records used by the examples *)

Module Examples.

Definition provider (id name npi_ lic st phone line1 tax : string) : Provider :=
  {| provider_id := id; full_name := name; npi := npi_;
     license_number := lic; license_state := st; practice_phone := phone;
     practice_address_line1 := line1; practice_city := "";
     practice_state := ""; practice_zip := ""; taxonomy_code := tax |}.

(** Scenario 3: same name and address, two different NPIs. *)
Definition s3_a : Provider :=
  provider "P1" "Jane Roe" "1111111111" "" "" "" "12 Oak St" "".
Definition s3_b : Provider :=
  provider "P2" "jane roe" "2222222222" "" "" "" "12 Oak St" "".

(** Two records that have nothing but a phone number. *)
Definition ph_a : Provider := provider "P1" "" "" "" "" "415-555-0101" "" "".
Definition ph_b : Provider := provider "P2" "" "" "" "" "(650) 777 0101" "" "".

(** Two records whose NPI is the literal [nan], sharing a taxonomy code. *)
Definition nan_a : Provider := provider "P1" "Ann Lee" "nan" "" "" "" "" "207Q00000X".
Definition nan_b : Provider := provider "P2" "Bob Ray" "nan" "" "" "" "" "207q00000x".

(** Scenario 1: same NPI and licence. *)
Definition s1_a : Provider :=
  provider "P1" "John A Smith MD" "1234567890" "000111" "CA" "" "" "".
Definition s1_b : Provider :=
  provider "P2" "john smith" "1234567890" "000111" "ca" "" "" "".

(** A chain: A and B share an NPI, B and C share a licence, A and C share
    nothing. *)
Definition chain_roster : list Provider :=
  [ provider "P3" "Ann Lee" "1234567890" "" "" "" "" "";
    provider "P2" "Bob Ray" "1234567890" "000111" "CA" "" "" "";
    provider "P1" "Cy Doe" "" "000111" "CA" "" "" "";
    provider "P4" "Dee Fox" "" "" "" "" "" "" ].

End Examples.

(** ** NPI signals *)

Definition with_npi_norm (v : string) (r : Row) : Row :=
  {| raw := raw r; name_norm := name_norm r; npi_norm := v;
     license_norm := license_norm r; license_state_norm := license_state_norm r;
     phone_norm := phone_norm r; phone_last4_col := phone_last4_col r;
     last_pref := last_pref r; tax_norm := tax_norm r; addr_norm := addr_norm r |}.

Lemma append_cons c s t : String c s +:+ t = String c (s +:+ t).
Proof. done. Qed.

Lemma append_nil t : "" +:+ t = t.
Proof. done. Qed.

(** A row whose [npi_norm] is empty or [nan] contributes no [NPI::] key. *)
Lemma block_keys_no_npi r v :
  npi_norm r = "" ∨ npi_norm r = "nan" → "NPI::" +:+ v ∉ block_keys r.
Proof.
  intros Hnpi Hin. unfold block_keys in Hin.
  assert (truthy (npi_norm r) && neq_nan (npi_norm r) = false) as Hc
    by (by destruct Hnpi as [-> | ->]).
  rewrite Hc, !elem_of_app in Hin.
  repeat match goal with
         | H : _ ∨ _ |- _ => destruct H as [H|H]
         | H : _ ∈ (if ?c then _ else _) |- _ => destruct c
         | H : _ ∈ [] |- _ => by apply elem_of_nil in H
         | H : _ ∈ [_] |- _ => apply list_elem_of_singleton in H
         end;
    rewrite !append_cons in Hin; discriminate Hin.
Qed.

Lemma npi_conflict_nan_l ra rb : npi_norm ra = "nan" → npi_conflict ra rb = false.
Proof.
  intros H. unfold npi_conflict. rewrite H. simpl.
  by rewrite andb_false_r.
Qed.

Lemma npi_conflict_nan_r ra rb : npi_norm rb = "nan" → npi_conflict ra rb = false.
Proof.
  intros H. unfold npi_conflict. rewrite H. simpl.
  by rewrite andb_false_r.
Qed.

(** C9.  The literal [nan] as an NPI: such a row joins no NPI block and never
    takes part in an NPI conflict, whatever the other row is; but a scored
    pair of two such rows gets the NPI-equality bonus: its score is 6.0 above
    the score of the same pair with both NPIs blank, and its reasons list
    [npi_eq] and not [npi_conflict]. *)
Theorem nan_npi_asymmetry R a b ra rb q :
  npi_norm ra = "nan" → npi_norm rb = "nan" →
  seq_ratio R (name_norm ra) (name_norm rb) = Ok q →
  (∀ v, "NPI::" +:+ v ∉ block_keys ra) ∧
  (∀ r, npi_conflict ra r = false ∧ npi_conflict r ra = false) ∧
  ∃ row row0,
    score_pair R a b ra rb = Ok row ∧
    score_pair R a b (with_npi_norm "" ra) (with_npi_norm "" rb) = Ok row0 ∧
    (score row == score row0 + 6)%Q ∧
    "npi_eq" ∈ reasons row ∧ "npi_conflict" ∉ reasons row.
Proof.
  intros Ha Hb Hq. split; [|split].
  - intros v. apply block_keys_no_npi. by right.
  - intros r. split; [by apply npi_conflict_nan_l | by apply npi_conflict_nan_r].
  - eexists _, _. split; [by apply score_pair_ok|].
    split; [by apply (score_pair_ok R a b (with_npi_norm "" ra) (with_npi_norm "" rb) q)|].
    simpl. unfold pair_reasons, npi_eq, npi_conflict. simpl. rewrite Ha, Hb. simpl.
    split; [|split].
    + unfold accumulate.
      change (lic_eq (with_npi_norm "" ra) (with_npi_norm "" rb)) with (lic_eq ra rb).
      change (ph4_eq (with_npi_norm "" ra) (with_npi_norm "" rb)) with (ph4_eq ra rb).
      change (tax_eq (with_npi_norm "" ra) (with_npi_norm "" rb)) with (tax_eq ra rb).
      destruct (lic_eq ra rb), (ph4_eq ra rb), (tax_eq ra rb); lra.
    + set_solver.
    + rewrite app_nil_r, !elem_of_cons, elem_of_app.
      intros [?|[H|H]]; [done| |].
      * destruct (lic_eq ra rb); [|by apply elem_of_nil in H].
        by apply list_elem_of_singleton in H.
      * destruct (ph4_eq ra rb); [|by apply elem_of_nil in H].
        by apply list_elem_of_singleton in H.
Qed.

Lemma nan_npi_asymmetry_witness :
  let ra := normalize_row Examples.nan_a in
  let rb := normalize_row Examples.nan_b in
  ∃ row row0,
    score_pair Difflib.ratio 0 1 ra rb = Ok row ∧
    score_pair Difflib.ratio 0 1 (with_npi_norm "" ra) (with_npi_norm "" rb) = Ok row0 ∧
    (score row == score row0 + 6)%Q.
Proof.
  intros ra rb.
  destruct (nan_npi_asymmetry Difflib.ratio 0 1 ra rb (1 # 7))
    as (_ & _ & row & row0 & H1 & H2 & H3 & _); [reflexivity..|].
  by exists row, row0.
Defined.

(** ** Scenario 3: the NPI conflict *)

(** The premises of scenario 3. *)
Record scenario3 (ra rb : Row) : Prop := {
  s3_name : name_norm ra = name_norm rb;
  s3_name_nonempty : name_norm ra ≠ "";
  s3_addr :
    list_to_set (C := gset string) (name_tokens (addr_norm ra))
    = list_to_set (name_tokens (addr_norm rb));
  s3_addr_nonempty : name_tokens (addr_norm ra) ≠ [];
  s3_npi_a : npi_norm ra ≠ "";
  s3_npi_b : npi_norm rb ≠ "";
  s3_npi_diff : npi_norm ra ≠ npi_norm rb;
  s3_phone : phone_last4_col ra = "" ∧ phone_last4_col rb = "";
  s3_tax : tax_norm ra = "" ∧ tax_norm rb = "";
  s3_lic : license_norm ra = "" ∧ license_norm rb = "";
  s3_lic_state : license_state_norm ra = "" ∧ license_state_norm rb = ""
}.

Lemma lic_eq_empty ra rb : license_norm ra = "" → lic_eq ra rb = false.
Proof. intros H. unfold lic_eq. by rewrite H. Qed.

Lemma npi_eq_diff ra rb : npi_norm ra ≠ npi_norm rb → npi_eq ra rb = false.
Proof.
  intros H. unfold npi_eq.
  destruct (both_eq _ _) eqn:E; [|done]. apply both_eq_true in E. naive_solver.
Qed.

Lemma npi_conflict_true ra rb :
  npi_conflict ra rb = true ↔
  npi_norm ra ≠ "" ∧ npi_norm rb ≠ "" ∧ npi_norm ra ≠ npi_norm rb
  ∧ npi_norm ra ≠ "nan" ∧ npi_norm rb ≠ "nan".
Proof.
  unfold npi_conflict, neq_nan.
  rewrite !andb_true_iff, !negb_true_iff, !truthy_true, !String.eqb_neq.
  naive_solver.
Qed.

(** C1, as the code has it.  In scenario 3 (same non-empty name with
    similarity 1.0, same non-empty address tokens, two different non-empty
    NPIs, no phone, taxonomy or licence), when neither NPI is the literal
    [nan], the score is 3.0 + 1.0 + 0.8 - 4.0 = 0.8: the name token overlap
    contributes 1.0 as well.  The pair is a nonmatch under the default
    thresholds. *)
Theorem scenario3_score R a b ra rb q :
  scenario3 ra rb →
  seq_ratio R (name_norm ra) (name_norm rb) = Ok q → (q == 1)%Q →
  npi_norm ra ≠ "nan" → npi_norm rb ≠ "nan" →
  ∃ row, score_pair R a b ra rb = Ok row ∧
         (score row == 0.8)%Q ∧
         classify 5 3 (score row) = "nonmatch".
Proof.
  intros [Hname Hne Haddr _ Hna Hnb Hdiff [Hpa _] [Hta _] [Hla _] _] HR Hq Hnana Hnanb.
  eexists. split; [by apply score_pair_ok|].
  simpl.
  assert (Hs : (accumulate (npi_eq ra rb) (lic_eq ra rb) (ph4_eq ra rb) (tax_eq ra rb)
                  (npi_conflict ra rb) q
                  (token_overlap (name_norm ra) (name_norm rb))
                  (token_overlap (addr_norm ra) (addr_norm rb)) == 0.8)%Q).
  { rewrite npi_eq_diff, lic_eq_empty by done.
    unfold ph4_eq, tax_eq. rewrite !both_eq_empty_l by done.
    assert (npi_conflict ra rb = true) as -> by (by apply npi_conflict_true).
    pose proof (token_overlap_same_set _ _ Haddr) as Ho.
    rewrite <- Hname. pose proof (token_overlap_refl (name_norm ra)) as Hn.
    unfold accumulate. lra. }
  split; [done|].
  apply classify_nonmatch; rewrite Hs; reflexivity.
Qed.

Lemma scenario3_holds_example :
  scenario3 (normalize_row Examples.s3_a) (normalize_row Examples.s3_b).
Proof. split; try done; by vm_compute. Defined.

Lemma scenario3_score_witness :
  ∃ row, score_pair Difflib.ratio 0 1
           (normalize_row Examples.s3_a) (normalize_row Examples.s3_b) = Ok row ∧
         (score row == 0.8)%Q ∧
         classify 5 3 (score row) = "nonmatch".
Proof.
  apply (scenario3_score _ _ _ _ _ 1);
    [apply scenario3_holds_example | reflexivity | reflexivity | done | done].
Defined.

(** The claim as the spec words it fails on the two records of
    [Examples]: they satisfy every premise of scenario 3, the similarity of
    the names is 1.0, and the score is not -0.2. *)
Lemma scenario3_score_counterexample :
  scenario3 (normalize_row Examples.s3_a) (normalize_row Examples.s3_b) ∧
  seq_ratio Difflib.ratio (name_norm (normalize_row Examples.s3_a))
    (name_norm (normalize_row Examples.s3_b)) = Ok 1%Q ∧
  ∃ row, score_pair Difflib.ratio 0 1
           (normalize_row Examples.s3_a) (normalize_row Examples.s3_b) = Ok row ∧
         ¬ (score row == -0.2)%Q.
Proof.
  split; [apply scenario3_holds_example|]. split; [reflexivity|].
  eexists. split; [reflexivity|]. by vm_compute.
Qed.

(** ** The union-find structure *)

Module UFProps.

(** [path p k x r]: following the parents from [x] reaches the root [r]
    in [k] steps. *)
Inductive path (p : list nat) : nat → nat → nat → Prop :=
  | path_root x : p !! x = Some x → path p 0 x x
  | path_step k x y r :
      p !! x = Some y → y ≠ x → path p k y r → path p (S k) x r.

Definition rep (p : list nat) (x r : nat) : Prop := ∃ k, path p k x r.

(** Every index has a root: the parent array is a forest. *)
Definition wf (p : list nat) : Prop := ∀ x, x < length p → ∃ r, rep p x r.

Definition same (p : list nat) (x y : nat) : Prop := ∃ r, rep p x r ∧ rep p y r.

(** [p'] has the roots of [p]. *)
Definition preserves (p p' : list nat) : Prop :=
  length p' = length p ∧ ∀ y r, rep p y r → rep p' y r.

Lemma path_is_root p k x r : path p k x r → p !! r = Some r.
Proof. induction 1; auto. Qed.

Lemma path_lt p k x r : path p k x r → x < length p.
Proof. destruct 1; by eapply lookup_lt_Some. Qed.

Lemma path_det p k x r k' r' : path p k x r → path p k' x r' → k = k' ∧ r = r'.
Proof.
  intros H. revert k' r'.
  induction H as [x Hx|k x y r Hx Hne _ IH]; intros k' r' H'.
  - inversion H'; by simplify_eq.
  - inversion H'; simplify_eq.
    edestruct IH as [-> ->]; [eassumption|done].
Qed.

Lemma rep_det p x r r' : rep p x r → rep p x r' → r = r'.
Proof. intros [k H] [k' H']. by destruct (path_det _ _ _ _ _ _ H H'). Qed.

Lemma rep_is_root p x r : rep p x r → p !! r = Some r.
Proof. intros [k H]. by eapply path_is_root. Qed.

Lemma rep_lt p x r : rep p x r → x < length p.
Proof. intros [k H]. by eapply path_lt. Qed.

Lemma rep_root p r : p !! r = Some r → rep p r r.
Proof. exists 0. by constructor. Qed.

Lemma rep_root_lt p x r : rep p x r → r < length p.
Proof. intros H. eapply lookup_lt_Some, rep_is_root, H. Qed.

Lemma rep_step p x y r : p !! x = Some y → rep p y r → rep p x r.
Proof.
  intros Hx [k H]. destruct (decide (y = x)) as [->|Hne]; [by exists k|].
  exists (S k). by econstructor.
Qed.

(** The nodes of a path are pairwise different. *)
Lemma path_nodes p k x r :
  path p k x r →
  ∃ l, length l = S k ∧ NoDup l ∧ ∀ y, y ∈ l → ∃ j, j ≤ k ∧ path p j y r.
Proof.
  induction 1 as [x Hx|k x y r Hx Hne H (l & Hlen & Hnd & Hl)].
  - exists [x]. split_and!; [done|apply NoDup_singleton|].
    intros y ->%list_elem_of_singleton. exists 0. split; [done|by constructor].
  - exists (x :: l). split_and!.
    + simpl. by rewrite Hlen.
    + constructor; [|done]. intros (j & Hj & Hp)%Hl.
      assert (path p (S k) x r) as Hp' by (by econstructor).
      destruct (path_det _ _ _ _ _ _ Hp Hp'). lia.
    + intros z [->|Hz]%elem_of_cons.
      * exists (S k). split; [done|by econstructor].
      * destruct (Hl z Hz) as (j & ? & ?). exists j. split; [lia|done].
Qed.

(** A path is shorter than the array, so [find_fuel] is enough fuel. *)
Lemma path_bound p k x r : path p k x r → k < length p.
Proof.
  intros H. destruct (path_nodes _ _ _ _ H) as (l & Hlen & Hnd & Hl).
  assert (l ⊆+ seq 0 (length p)) as Hsub.
  { apply NoDup_submseteq; [done|]. intros y (j & _ & Hy)%Hl.
    apply elem_of_seq. apply path_lt in Hy. lia. }
  apply submseteq_length in Hsub. rewrite length_seq in Hsub. lia.
Qed.

Lemma preserves_refl p : preserves p p.
Proof. by split. Qed.

Lemma preserves_trans p1 p2 p3 : preserves p1 p2 → preserves p2 p3 → preserves p1 p3.
Proof. intros [? H12] [? H23]. split; [congruence|auto]. Qed.

Lemma preserves_wf p p' : wf p → preserves p p' → wf p'.
Proof.
  intros Hwf [Hlen Hp] x Hx. rewrite Hlen in Hx.
  destruct (Hwf x Hx) as [r Hr]. exists r. auto.
Qed.

Lemma preserves_rep_inv p p' x r : wf p → preserves p p' → rep p' x r → rep p x r.
Proof.
  intros Hwf [Hlen Hp] Hr.
  destruct (Hwf x) as [r0 Hr0]; [rewrite <- Hlen; by eapply rep_lt|].
  by rewrite (rep_det _ _ _ _ Hr (Hp _ _ Hr0)).
Qed.

Lemma preserves_same p p' x y : wf p → preserves p p' → same p' x y ↔ same p x y.
Proof.
  intros Hwf Hp. split; intros (r & Hx & Hy); exists r.
  - split; by eapply preserves_rep_inv.
  - destruct Hp as [_ Hp]. split; by apply Hp.
Qed.

(** Path compression: [self.p[x] = r] for the root [r] of [x]. *)
Lemma compress_preserves p x r : rep p x r → x ≠ r → preserves p (<[x:=r]> p).
Proof.
  intros Hxr Hne. split; [apply length_insert|].
  intros y r' [k Hy]. induction Hy as [y Hy|k y z r' Hy Hzy Hz IH].
  - destruct (decide (y = x)) as [->|Hyx].
    + destruct Hne. eapply rep_det; [apply rep_root, Hy|done].
    + apply rep_root. by rewrite list_lookup_insert_ne.
  - destruct (decide (y = x)) as [->|Hyx].
    + assert (r' = r) as ->.
      { eapply rep_det; [|apply Hxr]. eapply rep_step; [exact Hy|]. by exists k. }
      eapply rep_step.
      * apply list_lookup_insert_eq. by eapply rep_lt.
      * apply rep_root. rewrite list_lookup_insert_ne by done.
        by eapply rep_is_root.
    + eapply rep_step; [|exact IH]. by rewrite list_lookup_insert_ne.
Qed.

Lemma find_path p k x r fuel :
  path p k x r → k < fuel →
  ∃ p', UF.find fuel p x = Some (p', r) ∧ preserves p p'.
Proof.
  intros H. revert fuel.
  induction H as [x Hx|k x y r Hx Hne Hy IH]; intros [|fuel] Hfuel; try lia.
  - exists p. simpl. rewrite Hx. simpl. rewrite decide_True by done.
    split; [done|apply preserves_refl].
  - destruct (IH fuel) as (p1 & Hfind & Hp1); [lia|].
    exists (<[x:=r]> p1). simpl. rewrite Hx. simpl.
    rewrite decide_False by done. rewrite Hfind. simpl. split; [done|].
    eapply preserves_trans; [done|]. apply compress_preserves.
    + apply Hp1. exists (S k). by econstructor.
    + intros ->. apply path_is_root in Hy. congruence.
Qed.

(** [find] returns the root and keeps every root. *)
Lemma find_spec p x :
  wf p → x < length p →
  ∃ p' r, UF.find (find_fuel p) p x = Some (p', r) ∧ rep p x r ∧ preserves p p'.
Proof.
  intros Hwf Hx. destruct (Hwf x Hx) as [r [k Hk]].
  destruct (find_path p k x r (find_fuel p) Hk) as (p' & Hfind & Hp).
  { apply path_bound in Hk. unfold find_fuel. lia. }
  exists p', r. split_and!; [done|by exists k|done].
Qed.

(** [self.p[rb] = ra] for two different roots. *)
Lemma link_rep p ra rb y r :
  p !! ra = Some ra → p !! rb = Some rb → ra ≠ rb →
  rep p y r → rep (<[rb:=ra]> p) y (if decide (r = rb) then ra else r).
Proof.
  intros Hra Hrb Hne [k Hy]. induction Hy as [y Hy|k y z r Hy Hzy _ IH].
  - case_decide as Hd.
    + subst y. eapply rep_step.
      * apply list_lookup_insert_eq. by eapply lookup_lt_Some.
      * apply rep_root. by rewrite list_lookup_insert_ne.
    + apply rep_root. by rewrite list_lookup_insert_ne.
  - eapply rep_step; [|exact IH].
    rewrite list_lookup_insert_ne; [done|]. intros <-. congruence.
Qed.

Lemma wf_init n : wf (UF.init n).
Proof.
  intros x Hx. unfold UF.init in *. rewrite length_seq in Hx.
  exists x. apply rep_root. by rewrite lookup_seq_lt.
Qed.

Lemma rep_init n x r : rep (UF.init n) x r ↔ x = r ∧ x < n.
Proof.
  split.
  - intros H. pose proof (rep_lt _ _ _ H) as Hx.
    unfold UF.init in Hx. rewrite length_seq in Hx. split; [|done].
    eapply rep_det; [|done]. apply rep_root. unfold UF.init. by rewrite lookup_seq_lt.
  - intros [<- Hx]. apply rep_root. unfold UF.init. by rewrite lookup_seq_lt.
Qed.

(** [union] merges the class of [b] into the class of [a] and leaves the
    other classes alone. *)
Lemma union_spec p a b :
  wf p → a < length p → b < length p →
  ∃ p' ra rb,
    UF.union (find_fuel p) p a b = Some p' ∧
    length p' = length p ∧ wf p' ∧
    rep p a ra ∧ rep p b rb ∧
    ∀ y r, rep p y r → rep p' y (if decide (r = rb) then ra else r).
Proof.
  intros Hwf Ha Hb.
  destruct (find_spec p a Hwf Ha) as (p1 & ra & Hfa & Hra & Hp1).
  pose proof (preserves_wf _ _ Hwf Hp1) as Hwf1.
  destruct Hp1 as [Hlen1 Hp1].
  destruct (find_spec p1 b Hwf1) as (p2 & rb & Hfb & Hrb & Hp2); [lia|].
  pose proof (preserves_wf _ _ Hwf1 Hp2) as Hwf2.
  destruct Hp2 as [Hlen2 Hp2].
  assert (rep p b rb) as Hrb0.
  { eapply preserves_rep_inv; [exact Hwf|split; eassumption|done]. }
  exists (if decide (ra = rb) then p2 else <[rb:=ra]> p2), ra, rb.
  split_and!; try done.
  - unfold UF.union. rewrite Hfa. cbn -[UF.find find_fuel].
    replace (find_fuel p) with (find_fuel p1) by (unfold find_fuel; by rewrite Hlen1).
    by rewrite Hfb.
  - case_decide; [lia|]. rewrite length_insert. lia.
  - case_decide as Hd; [done|].
    intros x Hx. rewrite length_insert in Hx.
    destruct (Hwf2 x Hx) as [r Hr]. eexists.
    apply link_rep; [| |done|exact Hr].
    + eapply rep_is_root, Hp2, Hp1, Hra.
    + eapply rep_is_root, Hp2, Hrb.
  - intros y r Hy. case_decide as Hd.
    + subst rb. case_decide; [subst r|]; by apply Hp2, Hp1.
    + apply link_rep; [| |done|by apply Hp2, Hp1].
      * eapply rep_is_root, Hp2, Hp1, Hra.
      * eapply rep_is_root, Hp2, Hrb.
Qed.

End UFProps.

(** ** Clusters are the connected components of the definite pairs *)

Module Clusters.
Import UFProps.

(** Connectedness through the pairs of [E], over a base relation. *)
Inductive conn (B : nat → nat → Prop) (E : list (nat * nat)) : nat → nat → Prop :=
  | conn_base x y : B x y → conn B E x y
  | conn_edge a b : (a, b) ∈ E → conn B E a b
  | conn_sym x y : conn B E x y → conn B E y x
  | conn_trans x y z : conn B E x y → conn B E y z → conn B E x z.

(** Two of the [n] records are connected by a chain of pairs of [E]. *)
Definition connected (n : nat) (E : list (nat * nat)) : nat → nat → Prop :=
  conn (fun x y => x = y ∧ x < n) E.

Definition valid (n : nat) (E : list (nat * nat)) : Prop :=
  ∀ a b, (a, b) ∈ E → a < n ∧ b < n.

Lemma conn_mono B E B' E' x y :
  (∀ x y, B x y → conn B' E' x y) →
  (∀ a b, (a, b) ∈ E → conn B' E' a b) →
  conn B E x y → conn B' E' x y.
Proof.
  intros HB HE. induction 1; eauto using conn_sym, conn_trans.
Qed.

Lemma connected_perm n E E' x y :
  E ≡ₚ E' → connected n E x y ↔ connected n E' x y.
Proof.
  intros HP. split; apply conn_mono; try (by intros; apply conn_base);
    intros a b Hab; apply conn_edge; [by rewrite <- HP|by rewrite HP].
Qed.

Lemma same_refl p x : wf p → x < length p → same p x x.
Proof. intros Hwf Hx. destruct (Hwf x Hx) as [r Hr]. by exists r. Qed.

Lemma same_sym p x y : same p x y → same p y x.
Proof. intros (r & ? & ?). by exists r. Qed.

Lemma same_trans p x y z : same p x y → same p y z → same p x z.
Proof.
  intros (r & Hx & Hy) (r' & Hy' & Hz).
  rewrite <- (rep_det _ _ _ _ Hy Hy') in Hz. by exists r.
Qed.

Lemma conn_same p x y : conn (same p) [] x y → same p x y.
Proof.
  induction 1 as [| a b H | |]; eauto using same_sym, same_trans.
  by apply elem_of_nil in H.
Qed.

Lemma union_same p a b :
  wf p → a < length p → b < length p →
  ∃ p', UF.union (find_fuel p) p a b = Some p' ∧
        length p' = length p ∧ wf p' ∧
        ∀ x y, same p' x y ↔
               same p x y ∨ (same p x a ∧ same p y b) ∨ (same p x b ∧ same p y a).
Proof.
  intros Hwf Ha Hb.
  destruct (union_spec p a b Hwf Ha Hb)
    as (p' & ra & rb & Hu & Hlen & Hwf' & Hra & Hrb & Hrep).
  exists p'. split_and!; try done. intros x y. split.
  - intros (r' & Hx' & Hy').
    destruct (Hwf x) as [rx Hx]; [rewrite <- Hlen; by eapply rep_lt|].
    destruct (Hwf y) as [ry Hy]; [rewrite <- Hlen; by eapply rep_lt|].
    pose proof (rep_det _ _ _ _ Hx' (Hrep _ _ Hx)) as Ex.
    pose proof (rep_det _ _ _ _ Hy' (Hrep _ _ Hy)) as Ey.
    repeat case_decide; subst;
      first [ by left; eexists; split; eassumption
            | by right; left; split; eexists; split; eassumption
            | by right; right; split; eexists; split; eassumption ].
  - intros [(r & Hx & Hy)|[[(r1 & Hx & Ha1) (r2 & Hy & Hb2)]|[(r1 & Hx & Hb1) (r2 & Hy & Ha2)]]].
    + eexists. split; by apply Hrep.
    + rewrite <- (rep_det _ _ _ _ Hra Ha1) in Hx.
      rewrite <- (rep_det _ _ _ _ Hrb Hb2) in Hy.
      exists ra. split.
      * apply Hrep in Hx. by case_decide; subst.
      * apply Hrep in Hy. by rewrite decide_True in Hy.
    + rewrite <- (rep_det _ _ _ _ Hrb Hb1) in Hx.
      rewrite <- (rep_det _ _ _ _ Hra Ha2) in Hy.
      exists ra. split.
      * apply Hrep in Hx. by rewrite decide_True in Hx.
      * apply Hrep in Hy. by case_decide; subst.
Qed.

(** After the unions, two records have the same root exactly when a chain
    of pairs connects them. *)
Lemma union_all_conn E : ∀ p,
  wf p → valid (length p) E →
  ∃ p', union_all p E = Some p' ∧ length p' = length p ∧ wf p' ∧
        ∀ x y, same p' x y ↔ conn (same p) E x y.
Proof.
  induction E as [|[a b] E IH]; intros p Hwf Hval.
  - exists p. split_and!; try done. intros x y. split; [apply conn_base|apply conn_same].
  - destruct (Hval a b) as [Ha Hb]; [by left|].
    destruct (union_same p a b Hwf Ha Hb) as (p1 & Hu & Hlen1 & Hwf1 & Hsame1).
    destruct (IH p1 Hwf1) as (p' & Hall & Hlen' & Hwf' & Hsame').
    { intros c d Hcd. rewrite Hlen1. apply Hval. by right. }
    exists p'. split_and!; [|congruence|done|].
    + simpl. rewrite Hu. done.
    + intros x y. rewrite Hsame'. split; apply conn_mono.
      * intros u v [Huv|[[Hu1 Hv1]|[Hu1 Hv1]]]%Hsame1.
        -- by apply conn_base.
        -- eapply conn_trans; [apply conn_base, Hu1|].
           eapply conn_trans; [apply conn_edge; by left|].
           apply conn_base, same_sym, Hv1.
        -- eapply conn_trans; [apply conn_base, Hu1|].
           eapply conn_trans; [apply conn_sym, conn_edge; by left|].
           apply conn_base, same_sym, Hv1.
      * intros c d Hcd. apply conn_edge. by right.
      * intros u v Huv. apply conn_base, Hsame1. by left.
      * intros c d [[= -> ->]|Hcd]%elem_of_cons; [|by apply conn_edge].
        apply conn_base, Hsame1. right; left. split; by apply same_refl.
Qed.

Lemma union_all_connected n E :
  valid n E →
  ∃ p, union_all (UF.init n) E = Some p ∧ length p = n ∧ wf p ∧
       ∀ x y, same p x y ↔ connected n E x y.
Proof.
  intros Hval.
  destruct (union_all_conn E (UF.init n)) as (p & Hall & Hlen & Hwf & Hsame).
  { apply wf_init. }
  { unfold UF.init. by rewrite length_seq. }
  unfold UF.init in Hlen. rewrite length_seq in Hlen.
  exists p. split_and!; try done.
  intros x y. rewrite Hsame. split; apply conn_mono;
    try (by intros; apply conn_edge).
  - intros u v (r & [-> Hu]%rep_init & [-> _]%rep_init). by apply conn_base.
  - intros u v [-> Hv]. apply conn_base. exists v. split; by apply rep_init.
Qed.

(** The root of [x], as [find] computes it. *)
Definition root (p : list nat) (x : nat) : nat :=
  default x (snd <$> UF.find (find_fuel p) p x).

Lemma root_rep p x : wf p → x < length p → rep p x (root p x).
Proof.
  intros Hwf Hx. destruct (find_spec p x Hwf Hx) as (p' & r & Hf & Hr & _).
  unfold root. by rewrite Hf.
Qed.

Lemma root_eq p x r : wf p → rep p x r → root p x = r.
Proof.
  intros Hwf Hr. eapply rep_det; [|done]. apply root_rep; [done|by eapply rep_lt].
Qed.

Lemma root_same p x y :
  wf p → x < length p → y < length p → root p x = root p y ↔ same p x y.
Proof.
  intros Hwf Hx Hy. split.
  - intros E. exists (root p x). split; [by apply root_rep|].
    rewrite E. by apply root_rep.
  - intros (r & Hrx & Hry). by rewrite (root_eq p x r), (root_eq p y r).
Qed.

Lemma root_preserves p p' x :
  wf p → preserves p p' → x < length p → root p' x = root p x.
Proof.
  intros Hwf Hp Hx. apply root_eq; [by eapply preserves_wf|].
  destruct Hp as [_ Hp]. by apply Hp, root_rep.
Qed.

Lemma filter_ext_Forall {A} (P Q : A → Prop)
    `{!∀ x, Decision (P x), !∀ x, Decision (Q x)} (l : list A) :
  Forall (fun x => P x ↔ Q x) l → filter P l = filter Q l.
Proof.
  induction 1 as [|x l Hx _ IH]; [done|].
  rewrite !filter_cons, IH. repeat case_decide; naive_solver.
Qed.

Definition members_of (clusters : gmap nat (list nat)) (r : nat) : list nat :=
  default [] (clusters !! r).

Lemma members_of_append i r clusters r' :
  members_of (cluster_append i r clusters) r'
  = members_of clusters r' ++ (if decide (r = r') then [i] else []).
Proof.
  unfold members_of, cluster_append. case_decide as Hd.
  - subst. by rewrite lookup_insert_eq.
  - rewrite lookup_insert_ne by done. by rewrite app_nil_r.
Qed.

(** The loop over [range(len(idx))] files every index under its root. *)
Lemma build_clusters_spec idx : ∀ p clusters,
  wf p → Forall (fun i => i < length p) idx →
  ∃ p' clusters',
    build_clusters p idx clusters = Some (p', clusters') ∧ preserves p p' ∧
    ∀ r, members_of clusters' r
         = members_of clusters r ++ filter (fun i => root p i = r) idx.
Proof.
  induction idx as [|i idx IH]; intros p clusters Hwf Hidx.
  - exists p, clusters. split_and!; [done|apply preserves_refl|].
    intros r. by rewrite app_nil_r.
  - apply Forall_cons in Hidx as [Hi Hidx].
    destruct (find_spec p i Hwf Hi) as (p1 & r & Hf & Hr & Hp1).
    pose proof (preserves_wf _ _ Hwf Hp1) as Hwf1.
    destruct (IH p1 (cluster_append i r clusters) Hwf1) as (p' & c' & Hb & Hp' & Hm).
    { destruct Hp1 as [-> _]. done. }
    exists p', c'. split_and!.
    + cbn -[UF.find find_fuel]. rewrite Hf. done.
    + by eapply preserves_trans.
    + intros r'. rewrite Hm, members_of_append, filter_cons.
      rewrite (root_eq p i r Hwf Hr). rewrite <- app_assoc. f_equal.
      assert (filter (λ j, root p1 j = r') idx = filter (λ j, root p j = r') idx) as ->.
      { apply filter_ext_Forall. eapply Forall_impl; [exact Hidx|].
        intros j Hj. simpl. by rewrite (root_preserves p p1). }
      by case_decide.
Qed.

End Clusters.

(** ** The canonical identifier of a cluster *)

Module Canonical.
Import UFProps Clusters.

(** [sorted(l)[0]] is the least element of a non-empty list. *)
Lemma canonical_id_min (l : list string) :
  l ≠ [] → canonical_id l ∈ l ∧ ∀ x, x ∈ l → String.le (canonical_id l) x.
Proof.
  intros Hne. unfold canonical_id.
  pose proof (merge_sort_Permutation String.le l) as HP.
  pose proof (StronglySorted_merge_sort String.le l) as HS.
  destruct (merge_sort String.le l) as [|c s] eqn:E.
  - apply Permutation_nil_l in HP. by subst.
  - simpl. split.
    + rewrite <- HP. by left.
    + intros x Hx. rewrite <- HP in Hx.
      apply elem_of_cons in Hx as [->|Hx]; [done|].
      apply StronglySorted_inv in HS as [_ HS].
      by eapply Forall_forall in HS.
Qed.

Section Ids.

Variable pid : nat → string.

(** The identifier that one round of the loop over [clusters.items()]
    gives to the members of a cluster. *)
Definition cid_of (ms : list nat) : string :=
  if decide (length ms = 1) then default "" (pid <$> head ms)
  else canonical_id (map pid ms).

Lemma foldl_insert_const (ms : list nat) (acc : gmap nat string) v i :
  foldl (fun acc m => <[m:=v]> acc) acc ms !! i
  = if decide (i ∈ ms) then Some v else acc !! i.
Proof.
  revert acc. induction ms as [|m ms IH]; intros acc; cbn [foldl].
  - destruct (decide (i ∈ [])) as [Hi|_]; [by apply elem_of_nil in Hi|done].
  - rewrite IH.
    destruct (decide (i ∈ ms)) as [Hi|Hi], (decide (i ∈ m :: ms)) as [Hi'|Hi'];
      try done.
    + destruct Hi'. by right.
    + apply elem_of_cons in Hi' as [->|?]; [apply lookup_insert_eq|done].
    + rewrite lookup_insert_ne; [done|]. intros <-. apply Hi'. by left.
Qed.

Lemma assign_members_lookup ms (acc : gmap nat string) i :
  assign_members pid ms acc !! i
  = if decide (i ∈ ms) then Some (cid_of ms) else acc !! i.
Proof.
  unfold assign_members, cid_of. destruct (decide (length ms = 1)) as [Hlen|Hlen].
  - destruct ms as [|m [|? ?]]; try done. cbn beta iota.
    destruct (decide (i ∈ [m])) as [Hi|Hi].
    + apply list_elem_of_singleton in Hi as ->. apply lookup_insert_eq.
    + rewrite lookup_insert_ne; [done|]. intros <-. apply Hi. by left.
  - apply foldl_insert_const.
Qed.

Lemma assign_all_lookup (l : list (nat * list nat)) i ms :
  (∀ kv, kv ∈ l → i ∈ kv.2 → kv.2 = ms) →
  (∃ kv, kv ∈ l ∧ i ∈ kv.2) →
  foldr (fun kv acc => assign_members pid kv.2 acc) (∅ : gmap nat string) l !! i
  = Some (cid_of ms).
Proof.
  induction l as [|kv l IH]; intros Huniq (kv' & Hin & Hi).
  - by apply elem_of_nil in Hin.
  - simpl. rewrite assign_members_lookup. case_decide as Hd.
    + rewrite (Huniq kv); [done|by left|done].
    + apply IH.
      * intros kv0 ? ?. apply Huniq; [by right|done].
      * exists kv'. apply elem_of_cons in Hin as [->|Hin]; done.
Qed.

Lemma fill_missing_lookup idx (rtc : gmap nat string) i v :
  rtc !! i = Some v → fill_missing pid idx rtc !! i = Some v.
Proof.
  revert rtc. induction idx as [|j idx IH]; intros rtc Hi; [done|].
  simpl. apply IH. destruct (rtc !! j) eqn:Hj; [done|].
  rewrite lookup_insert_ne; [done|]. intros ->. congruence.
Qed.

(** The members of the cluster of [i]: the records with the root of [i]. *)
Definition cluster_of (p : list nat) (n i : nat) : list nat :=
  filter (fun j => root p j = root p i) (seq 0 n).

Lemma dedup_cluster_ids_spec n p (clusters : gmap nat (list nat)) :
  (∀ r, members_of clusters r = filter (fun i => root p i = r) (seq 0 n)) →
  dedup_cluster_ids pid n clusters = map (fun i => cid_of (cluster_of p n i)) (seq 0 n).
Proof.
  intros Hm. unfold dedup_cluster_ids. apply map_ext_in. intros i Hi.
  apply list_elem_of_In, elem_of_seq in Hi.
  erewrite fill_missing_lookup; [done|].
  apply assign_all_lookup.
  - intros [r ms] Hin Hims. simpl in *.
    apply elem_of_map_to_list in Hin.
    specialize (Hm r). unfold members_of in Hm. rewrite Hin in Hm. simpl in Hm.
    subst ms. apply list_elem_of_filter in Hims as [<- _]. done.
  - assert (i ∈ members_of clusters (root p i)) as Hin.
    { rewrite Hm. apply list_elem_of_filter. split; [done|]. apply elem_of_seq. lia. }
    unfold members_of in Hin.
    destruct (clusters !! root p i) as [ms|] eqn:E; [|by apply elem_of_nil in Hin].
    exists (root p i, ms). split; [by apply elem_of_map_to_list|done].
Qed.

End Ids.

(** The clustering of [n] records by the pairs [E], as a whole. *)
Lemma cluster_definite_spec n E :
  valid n E →
  ∃ p clusters,
    cluster_definite n E = Some clusters ∧ wf p ∧ length p = n ∧
    (∀ x y, x < n → y < n → root p x = root p y ↔ connected n E x y) ∧
    (∀ r, members_of clusters r = filter (fun i => root p i = r) (seq 0 n)) ∧
    ∀ pid, dedup_cluster_ids pid n clusters
           = map (fun i => cid_of pid (cluster_of p n i)) (seq 0 n).
Proof.
  intros Hval.
  destruct (union_all_connected n E Hval) as (p & Hall & Hlen & Hwf & Hsame).
  destruct (build_clusters_spec (seq 0 n) p ∅ Hwf) as (p' & clusters & Hb & _ & Hm).
  { apply Forall_forall. intros i Hi%elem_of_seq. lia. }
  assert (∀ r, members_of clusters r = filter (λ i, root p i = r) (seq 0 n)) as Hm'.
  { intros r. rewrite Hm. unfold members_of. by rewrite lookup_empty. }
  exists p, clusters. split_and!; try done.
  - unfold cluster_definite. rewrite Hall. cbn -[build_clusters]. by rewrite Hb.
  - intros x y Hx Hy. rewrite <- Hsame. apply root_same; [done|lia..].
  - intros pid. by apply dedup_cluster_ids_spec.
Qed.

End Canonical.

(** ** Blocking and candidate pairs *)

Module Blocking.

Definition block_members (blocks : gmap string (list nat)) (k : string) : list nat :=
  default [] (blocks !! k).

Lemma block_append_members i blocks k k' :
  block_members (block_append i blocks k) k'
  = block_members blocks k' ++ (if decide (k = k') then [i] else []).
Proof.
  unfold block_members, block_append. case_decide as Hd.
  - subst. by rewrite lookup_insert_eq.
  - rewrite lookup_insert_ne by done. by rewrite app_nil_r.
Qed.

Lemma foldl_block_append i ks : ∀ blocks k i',
  i' ∈ block_members (foldl (block_append i) blocks ks) k
  ↔ i' ∈ block_members blocks k ∨ (i' = i ∧ k ∈ ks).
Proof.
  induction ks as [|k0 ks IH]; intros blocks k i'; cbn [foldl].
  - split; [by left|]. intros [?|[_ H]]; [done|by apply elem_of_nil in H].
  - rewrite IH, block_append_members, elem_of_app, elem_of_cons.
    case_decide as Hd.
    + subst. rewrite list_elem_of_singleton. naive_solver.
    + split; [|naive_solver].
      intros [[?|H]|?]; [by left|by apply elem_of_nil in H|naive_solver].
Qed.

Lemma build_blocks_members rows : ∀ i0 blocks k i,
  i ∈ block_members (build_blocks i0 rows blocks) k
  ↔ i ∈ block_members blocks k
    ∨ ∃ j r, i = i0 + j ∧ rows !! j = Some r ∧ k ∈ block_keys r.
Proof.
  induction rows as [|r rows IH]; intros i0 blocks k i; cbn [build_blocks].
  - split; [by left|]. by intros [?|(j & r & _ & ? & _)].
  - rewrite IH, foldl_block_append. split.
    + intros [[?|[-> Hk]]|(j & r' & -> & Hj & Hk)].
      * by left.
      * right. exists 0, r. split_and!; [lia|done..].
      * right. exists (S j), r'. split_and!; [lia|done..].
    + intros [?|(j & r' & -> & Hj & Hk)]; [by left; left|].
      destruct j as [|j]; simpl in Hj.
      * left; right. simplify_eq. split; [lia|done].
      * right. exists j, r'. split_and!; [lia|done..].
Qed.

(** A record is in the block of [k] exactly when [k] is one of its keys. *)
Lemma blocks_members rows k i :
  i ∈ block_members (build_blocks 0 rows ∅) k
  ↔ ∃ r, rows !! i = Some r ∧ k ∈ block_keys r.
Proof.
  rewrite build_blocks_members. unfold block_members at 1. rewrite lookup_empty.
  split.
  - intros [H|(j & r & -> & ? & ?)]; [by apply elem_of_nil in H|]. by exists r.
  - intros (r & ? & ?). right. by exists i, r.
Qed.

Lemma sorted_set_elem v i : i ∈ sorted_set v ↔ i ∈ v.
Proof.
  unfold sorted_set. by rewrite merge_sort_Permutation, elem_of_remove_dups.
Qed.

Lemma sorted_set_strict v : StronglySorted lt (sorted_set v).
Proof.
  unfold sorted_set.
  pose proof (StronglySorted_merge_sort Nat.le (remove_dups v)) as HS.
  assert (NoDup (merge_sort Nat.le (remove_dups v))) as HN.
  { rewrite merge_sort_Permutation. apply NoDup_remove_dups. }
  induction HS as [|x l _ IH Hx]; [constructor|].
  apply NoDup_cons in HN as [Hxl HN]. constructor; [by apply IH|].
  apply Forall_forall. intros y Hy.
  assert (x ≠ y) by (by intros ->).
  eapply Forall_forall in Hx; [|done]. unfold Nat.le in *. lia.
Qed.

Lemma combinations2_elem l a b :
  StronglySorted lt l → (a, b) ∈ combinations2 l ↔ a ∈ l ∧ b ∈ l ∧ a < b.
Proof.
  induction 1 as [|x l _ IH Hx]; cbn [combinations2].
  - split; [by intros ?%elem_of_nil|by intros [?%elem_of_nil _]].
  - rewrite elem_of_app, IH, !elem_of_cons.
    assert (∀ y, y ∈ l → x < y) as Hlt by (by apply Forall_forall).
    split.
    + intros [Hin|(Ha & Hb & Hab)]; [|by auto].
      apply list_elem_of_In, in_map_iff in Hin as (y & [= <- <-] & Hy).
      apply list_elem_of_In in Hy. auto.
    + intros ([->|Ha] & [->|Hb] & Hab).
      * lia.
      * left. apply list_elem_of_In, in_map_iff. exists b.
        split; [done|by apply list_elem_of_In].
      * apply Hlt in Ha. lia.
      * by right.
Qed.

Lemma block_pairs_elem v a b : (a, b) ∈ block_pairs v ↔ a ∈ v ∧ b ∈ v ∧ a < b.
Proof.
  unfold block_pairs. destruct (1 <? length v) eqn:Hlen.
  - rewrite combinations2_elem by apply sorted_set_strict.
    by rewrite !sorted_set_elem.
  - apply Nat.ltb_ge in Hlen. split; [by intros ?%elem_of_nil|].
    intros (Ha & Hb & Hab). destruct v as [|x [|y v]]; simpl in Hlen; try lia.
    + by apply elem_of_nil in Ha.
    + apply list_elem_of_singleton in Ha, Hb. lia.
Qed.

Lemma candidate_pairs_elem blocks a b :
  (a, b) ∈ candidate_pairs blocks
  ↔ ∃ k, a ∈ block_members blocks k ∧ b ∈ block_members blocks k ∧ a < b.
Proof.
  unfold candidate_pairs.
  assert (∀ l : list (string * list nat),
    (a, b) ∈ foldr (fun kv acc => list_to_set (block_pairs kv.2) ∪ acc)
               (∅ : gset (nat * nat)) l
    ↔ ∃ kv, kv ∈ l ∧ (a, b) ∈ block_pairs kv.2) as Hfold.
  { induction l as [|kv l IH]; cbn [foldr].
    - split; [set_solver|]. by intros (? & ?%elem_of_nil & _).
    - rewrite elem_of_union, elem_of_list_to_set, IH. split.
      + intros [?|(kv' & ? & ?)]; [exists kv|exists kv']; split; try done;
          [by left|by right].
      + intros (kv' & [->|?]%elem_of_cons & ?); [by left|right; by exists kv']. }
  rewrite Hfold. split.
  - intros ([k v] & Hkv%elem_of_map_to_list & Hab%block_pairs_elem).
    exists k. unfold block_members. by rewrite Hkv.
  - intros (k & Ha & Hb & Hab). unfold block_members in *.
    destruct (blocks !! k) as [v|] eqn:E; [|by apply elem_of_nil in Ha].
    exists (k, v). split; [by apply elem_of_map_to_list|].
    by apply block_pairs_elem.
Qed.

(** The keys of a row, one constructor per [if] of the blocking loop. *)
Inductive key_of (r : Row) : string → Prop :=
  | key_npi :
      npi_norm r ≠ "" → npi_norm r ≠ "nan" →
      key_of r ("NPI::" +:+ npi_norm r)
  | key_lic :
      license_norm r ≠ "" → license_state_norm r ≠ "" → license_norm r ≠ "nan" →
      key_of r ("LIC::" +:+ license_state_norm r +:+ "::" +:+ license_norm r)
  | key_lnp : last_pref r ≠ "" → key_of r ("LNP::" +:+ last_pref r)
  | key_ph4 : phone_last4_col r ≠ "" → key_of r ("PH4::" +:+ phone_last4_col r)
  | key_tax : tax_norm r ≠ "" → key_of r ("TAX::" +:+ tax_norm r).

Lemma neq_nan_true s : neq_nan s = true ↔ s ≠ "nan".
Proof.
  unfold neq_nan. destruct (String.eqb_spec s "nan"); split; naive_solver.
Qed.

Lemma elem_of_if_singleton (c : bool) (k x : string) :
  x ∈ (if c then [k] else []) ↔ c = true ∧ x = k.
Proof.
  destruct c.
  - rewrite list_elem_of_singleton. naive_solver.
  - split; [by intros ?%elem_of_nil|naive_solver].
Qed.

Lemma block_keys_spec r k : k ∈ block_keys r ↔ key_of r k.
Proof.
  unfold block_keys.
  rewrite !elem_of_app, !elem_of_if_singleton, !andb_true_iff, !truthy_true,
    !neq_nan_true.
  split.
  - intros [[[] ->]|[[[[] ?] ->]|[[? ->]|[[? ->]|[? ->]]]]]; by constructor.
  - destruct 1; naive_solver.
Qed.

End Blocking.

(** Two rows agree on a non-empty blocking key.  The licence key is the text
    [state::number], as the blocking loop builds it. *)
Definition shares_key (ra rb : Row) : Prop :=
  (npi_norm ra ≠ "" ∧ npi_norm ra = npi_norm rb)
  ∨ (license_norm ra ≠ "" ∧ license_state_norm ra ≠ ""
     ∧ license_norm rb ≠ "" ∧ license_state_norm rb ≠ ""
     ∧ license_state_norm ra +:+ "::" +:+ license_norm ra
       = license_state_norm rb +:+ "::" +:+ license_norm rb)
  ∨ (last_pref ra ≠ "" ∧ last_pref ra = last_pref rb)
  ∨ (phone_last4_col ra ≠ "" ∧ phone_last4_col ra = phone_last4_col rb)
  ∨ (tax_norm ra ≠ "" ∧ tax_norm ra = tax_norm rb).

Lemma key_of_shared ra rb k :
  Blocking.key_of ra k → Blocking.key_of rb k → shares_key ra rb.
Proof.
  intros Ha Hb. unfold shares_key. destruct Ha; inversion Hb as [? ? E|? ? ? E|? E|? E|? E];
    try (rewrite !append_cons in E; discriminate E);
    apply (inj (String.app _)) in E; naive_solver.
Qed.

Lemma key_of_npi r v : Blocking.key_of r ("NPI::" +:+ v) → npi_norm r ≠ "".
Proof.
  inversion 1 as [? ? E|? ? ? E|? E|? E|? E];
    try (rewrite !append_cons in E; discriminate E); done.
Qed.

Lemma key_of_lic r v :
  Blocking.key_of r ("LIC::" +:+ v) → license_norm r ≠ "" ∧ license_state_norm r ≠ "".
Proof.
  inversion 1 as [? ? E|? ? ? E|? E|? E|? E];
    try (rewrite !append_cons in E; discriminate E); done.
Qed.

Lemma key_of_lnp r v : Blocking.key_of r ("LNP::" +:+ v) → last_pref r ≠ "".
Proof.
  inversion 1 as [? ? E|? ? ? E|? E|? E|? E];
    try (rewrite !append_cons in E; discriminate E); done.
Qed.

Lemma key_of_ph4 r v : Blocking.key_of r ("PH4::" +:+ v) → phone_last4_col r ≠ "".
Proof.
  inversion 1 as [? ? E|? ? ? E|? E|? E|? E];
    try (rewrite !append_cons in E; discriminate E); done.
Qed.

Lemma key_of_tax r v : Blocking.key_of r ("TAX::" +:+ v) → tax_norm r ≠ "".
Proof.
  inversion 1 as [? ? E|? ? ? E|? E|? E|? E];
    try (rewrite !append_cons in E; discriminate E); done.
Qed.

(** C7.  A candidate pair [(a, b)] has [a < b], so the pair set never holds
    it in the other order; its two rows are in one block, which means that
    they agree on a non-empty NPI, licence key, last-name prefix, phone
    suffix or taxonomy code; and a row whose value for a key is empty is in
    no block of that key. *)
Theorem candidate_pairs_sound (roster_df : list Provider) (a b : nat) :
  let roster := map normalize_row roster_df in
  let blocks := build_blocks 0 roster ∅ in
  (a, b) ∈ candidate_pairs blocks →
  a < b ∧ ((b, a) ∉ candidate_pairs blocks) ∧
  (∃ ra rb k,
     roster !! a = Some ra ∧ roster !! b = Some rb ∧
     a ∈ Blocking.block_members blocks k ∧ b ∈ Blocking.block_members blocks k ∧
     k ∈ block_keys ra ∧ k ∈ block_keys rb ∧ shares_key ra rb) ∧
  (∀ i r v, roster !! i = Some r →
     (npi_norm r = "" → i ∉ Blocking.block_members blocks ("NPI::" +:+ v)) ∧
     (license_norm r = "" ∨ license_state_norm r = "" →
        i ∉ Blocking.block_members blocks ("LIC::" +:+ v)) ∧
     (last_pref r = "" → i ∉ Blocking.block_members blocks ("LNP::" +:+ v)) ∧
     (phone_last4_col r = "" → i ∉ Blocking.block_members blocks ("PH4::" +:+ v)) ∧
     (tax_norm r = "" → i ∉ Blocking.block_members blocks ("TAX::" +:+ v))).
Proof.
  intros roster blocks Hab.
  pose proof Hab as (k & Ha & Hb & Hlt)%Blocking.candidate_pairs_elem.
  split; [done|]. split; [|split].
  - intros (k' & _ & _ & Hlt')%Blocking.candidate_pairs_elem. lia.
  - pose proof Ha as (ra & Hra & Hka)%Blocking.blocks_members.
    pose proof Hb as (rb & Hrb & Hkb)%Blocking.blocks_members.
    exists ra, rb, k. split_and!; try done.
    apply (key_of_shared ra rb k); by apply Blocking.block_keys_spec.
  - intros i r v Hi.
    assert (∀ k', i ∈ Blocking.block_members blocks k' → Blocking.key_of r k') as Hkey.
    { intros k' (r' & Hr' & Hk')%Blocking.blocks_members.
      apply Blocking.block_keys_spec. congruence. }
    split_and!.
    + intros E Hin%Hkey%key_of_npi. done.
    + intros E [Hin1 Hin2]%Hkey%key_of_lic. naive_solver.
    + intros E Hin%Hkey%key_of_lnp. done.
    + intros E Hin%Hkey%key_of_ph4. done.
    + intros E Hin%Hkey%key_of_tax. done.
Qed.

Lemma candidate_pairs_sound_witness :
  let roster := map normalize_row [Examples.ph_a; Examples.ph_b] in
  (0, 1) ∈ candidate_pairs (build_blocks 0 roster ∅) ∧
  ∃ ra rb, roster !! 0 = Some ra ∧ roster !! 1 = Some rb ∧ shares_key ra rb.
Proof.
  intros roster.
  assert ((0, 1) ∈ candidate_pairs (build_blocks 0 roster ∅)) as Hin
    by (by vm_compute).
  split; [exact Hin|].
  destruct (candidate_pairs_sound [Examples.ph_a; Examples.ph_b] 0 1 Hin)
    as (_ & _ & (ra & rb & k & Hra & Hrb & _ & _ & _ & _ & Hs) & _).
  exists ra, rb. split; [exact Hra|]. split; [exact Hrb|exact Hs].
Defined.

(** ** The batch as a whole *)

Definition roster_of (roster_df : list Provider) : list Row :=
  map normalize_row roster_df.

Definition candidates_of (roster_df : list Provider) : gset (nat * nat) :=
  candidate_pairs (build_blocks 0 (roster_of roster_df) ∅).

(** The row of [pairs_df] for the records [a] and [b]. *)
Definition row_of (row : PairRow) (a b : nat) : Prop :=
  idx_a row = a ∧ idx_b row = b.

Module Pipeline.
Import UFProps Clusters Canonical.

Section WithRatio.

Variable R : string → string → exc Q.

Definition scored (roster : list Row) (c : nat * nat) (row : PairRow) : Prop :=
  ∃ ra rb, roster !! c.1 = Some ra ∧ roster !! c.2 = Some rb ∧
           score_pair R c.1 c.2 ra rb = Ok row.

Lemma score_pairs_cons roster a b cands :
  score_pairs R roster ((a, b) :: cands) =
    match roster !! a, roster !! b with
    | Some ra, Some rb =>
        match score_pair R a b ra rb with
        | Ok row =>
            match score_pairs R roster cands with
            | Ok rows => Ok (row :: rows)
            | Raise e => Raise e
            end
        | Raise e => Raise e
        end
    | _, _ => Raise "KeyError"
    end.
Proof.
  cbn [score_pairs]. destruct (roster !! a), (roster !! b); try done.
Qed.

Lemma score_pairs_ok roster cands : ∀ rows,
  score_pairs R roster cands = Ok rows → Forall2 (scored roster) cands rows.
Proof.
  induction cands as [|[a b] cands IH]; intros rows H.
  - simpl in H. simplify_eq. constructor.
  - rewrite score_pairs_cons in H.
    destruct (roster !! a) as [ra|] eqn:Ea; [|done].
    destruct (roster !! b) as [rb|] eqn:Eb; [|done].
    destruct (score_pair R a b ra rb) as [row|] eqn:Es; [|done].
    destruct (score_pairs R roster cands) as [rows'|] eqn:Er; [|done].
    simplify_eq. constructor; [|by apply IH]. by exists ra, rb.
Qed.

Lemma score_pairs_raise roster cands a b ra rb e :
  (a, b) ∈ cands → roster !! a = Some ra → roster !! b = Some rb →
  score_pair R a b ra rb = Raise e →
  ∃ e', score_pairs R roster cands = Raise e'.
Proof.
  intros Hin Ha Hb He. induction cands as [|[a' b'] cands IH].
  - by apply elem_of_nil in Hin.
  - rewrite score_pairs_cons. apply elem_of_cons in Hin as [[= <- <-]|Hin].
    + rewrite Ha, Hb, He. by eexists.
    + destruct (roster !! a'); [|by eexists].
      destruct (roster !! b'); [|by eexists].
      destruct (score_pair R a' b' _ _); [|by eexists].
      destruct (IH Hin) as [e' ->]. by eexists.
Qed.

Lemma score_pairs_total roster cands :
  (∀ c, c ∈ cands → ∃ row, scored roster c row) →
  ∃ rows, score_pairs R roster cands = Ok rows.
Proof.
  induction cands as [|[a b] cands IH]; intros H; [by eexists|].
  destruct (H (a, b)) as (row & ra & rb & Ha & Hb & Hs); [by left|].
  destruct IH as [rows Hrows]; [intros c Hc; apply H; by right|].
  exists (row :: rows). rewrite score_pairs_cons. simpl in *.
  by rewrite Ha, Hb, Hs, Hrows.
Qed.

Lemma scored_idx roster c row : scored roster c row → row_of row c.1 c.2.
Proof.
  intros (ra & rb & _ & _ & Hs).
  apply score_pair_inv in Hs as (q & _ & ? & ? & _). done.
Qed.

Lemma candidates_valid df a b :
  (a, b) ∈ candidates_of df →
  a < b ∧ ∃ ra rb, roster_of df !! a = Some ra ∧ roster_of df !! b = Some rb.
Proof.
  intros (k & Ha & Hb & Hlt)%Blocking.candidate_pairs_elem.
  apply Blocking.blocks_members in Ha as (ra & Hra & _).
  apply Blocking.blocks_members in Hb as (rb & Hrb & _).
  split; [done|]. by exists ra, rb.
Qed.

Lemma definite_pairs_elem (pairs : list (PairRow * string)) a b :
  (a, b) ∈ definite_pairs pairs
  ↔ ∃ row, (row, "definite") ∈ pairs ∧ row_of row a b.
Proof.
  unfold definite_pairs, row_of.
  rewrite list_elem_of_In, in_map_iff. split.
  - intros ([row cls] & [= <- <-] & [Hin Hd]%filter_In).
    unfold is_definite in Hd. simpl in Hd. apply String.eqb_eq in Hd as ->.
    exists row. split; [by apply list_elem_of_In|done].
  - intros (row & Hin & <- & <-). exists (row, "definite"). split; [done|].
    apply filter_In. split; [by apply list_elem_of_In|done].
Qed.

(** What a returned [Output] is made of. *)
Record run (df : list Provider) (td tp : Q) (out : Output)
    (pair_data : list PairRow) (clusters : gmap nat (list nat)) : Prop := {
  run_scored :
    Forall2 (scored (roster_of df)) (elements (candidates_of df)) pair_data;
  run_nonempty : pair_data ≠ [];
  run_pairs :
    pairs_df out
    = map (fun r => (r, classify td tp (score r)))
        (merge_sort score_ge pair_data);
  run_clusters :
    cluster_definite (length df) (definite_pairs (pairs_df out)) = Some clusters;
  run_roster :
    roster_out out
    = zip (roster_of df)
        (dedup_cluster_ids (row_pid (roster_of df)) (length df) clusters);
  run_multi :
    multi out
    = List.filter (fun c => (1 <? length c)%nat) (map snd (map_to_list clusters))
}.

Definition output_of (df : list Provider) (pairs : list (PairRow * string))
    (clusters : gmap nat (list nat)) : Output :=
  {| pairs_df := pairs;
     roster_out :=
       zip (roster_of df)
         (dedup_cluster_ids (row_pid (roster_of df)) (length df) clusters);
     multi := List.filter (fun c => (1 <? length c)%nat)
                (map snd (map_to_list clusters)) |}.

Definition classified (td tp : Q) (pair_data : list PairRow)
    : list (PairRow * string) :=
  map (fun r => (r, classify td tp (score r))) (merge_sort score_ge pair_data).

Lemma dedupe_unfold df td tp :
  dedupe R df td tp =
    match score_pairs R (roster_of df) (elements (candidates_of df)) with
    | Raise e => Raise e
    | Ok [] => Raise "KeyError: 'score'"
    | Ok pair_data =>
        match cluster_definite (length df)
                (definite_pairs (classified td tp pair_data)) with
        | Some clusters => Ok (output_of df (classified td tp pair_data) clusters)
        | None => Raise "RecursionError"
        end
    end.
Proof.
  unfold dedupe. fold (roster_of df). fold (candidates_of df).
  replace (length (roster_of df)) with (length df)
    by (unfold roster_of; by rewrite length_map).
  destruct (score_pairs R (roster_of df) (elements (candidates_of df)))
    as [[|row rows]|e]; [reflexivity| |reflexivity].
  cbn [mbind exc_bind sort_pairs].
  fold (classified td tp (row :: rows)).
  destruct (cluster_definite _ _); reflexivity.
Qed.

Lemma dedupe_inv df td tp out :
  dedupe R df td tp = Ok out → ∃ pair_data clusters, run df td tp out pair_data clusters.
Proof.
  rewrite dedupe_unfold.
  destruct (score_pairs R (roster_of df) (elements (candidates_of df)))
    as [pair_data|e] eqn:Es; [|intros; discriminate].
  destruct pair_data as [|row0 rows0] eqn:Ep; [intros; discriminate|].
  rewrite <- Ep in *.
  destruct (cluster_definite _ _) as [clusters|] eqn:Ec; [|intros; discriminate].
  intros [= <-]. exists pair_data, clusters.
  split; [by apply score_pairs_ok|by rewrite Ep|reflexivity|exact Ec|reflexivity..].
Qed.

Lemma classified_elem df td tp pair_data row cls :
  Forall2 (scored (roster_of df)) (elements (candidates_of df)) pair_data →
  (row, cls) ∈ classified td tp pair_data
  ↔ cls = classify td tp (score row) ∧
    ∃ c, c ∈ candidates_of df ∧ scored (roster_of df) c row.
Proof.
  intros HF. unfold classified. rewrite list_elem_of_In, in_map_iff. split.
  - intros (r & [= <- <-] & Hin%list_elem_of_In).
    rewrite merge_sort_Permutation in Hin. split; [done|].
    apply list_elem_of_lookup in Hin as [i Hi].
    destruct (Forall2_lookup_r _ _ _ _ _ HF Hi) as (c & Hc & Hs).
    exists c. split; [|done]. apply elem_of_elements.
    apply list_elem_of_lookup. by exists i.
  - intros (-> & c & Hc & Hs).
    apply elem_of_elements, list_elem_of_lookup in Hc as [i Hi].
    destruct (Forall2_lookup_l _ _ _ _ _ HF Hi) as (row' & Hrow' & Hs').
    assert (row' = row) as ->.
    { destruct Hs as (ra & rb & ? & ? & ?), Hs' as (ra' & rb' & ? & ? & ?).
      congruence. }
    exists row. split; [done|]. apply list_elem_of_In.
    rewrite merge_sort_Permutation. apply list_elem_of_lookup. by exists i.
Qed.

Lemma classified_valid df td tp pair_data :
  Forall2 (scored (roster_of df)) (elements (candidates_of df)) pair_data →
  valid (length df) (definite_pairs (classified td tp pair_data)).
Proof.
  intros HF a b (row & Hin & <- & <-)%definite_pairs_elem.
  eapply classified_elem in Hin as (_ & [a b] & Hc & Hs); [|done].
  apply scored_idx in Hs as [-> ->]. simpl.
  apply candidates_valid in Hc as (_ & ra & rb & Ha & Hb).
  apply lookup_lt_Some in Ha, Hb. unfold roster_of in *.
  rewrite length_map in Ha, Hb. done.
Qed.

Lemma pairs_df_elem df td tp out pair_data clusters row cls :
  run df td tp out pair_data clusters →
  (row, cls) ∈ pairs_df out
  ↔ cls = classify td tp (score row) ∧
    ∃ c, c ∈ candidates_of df ∧ scored (roster_of df) c row.
Proof.
  intros Hrun. rewrite (run_pairs _ _ _ _ _ _ Hrun).
  apply classified_elem, Hrun.
Qed.

Lemma definite_valid df td tp out pair_data clusters :
  run df td tp out pair_data clusters →
  valid (length df) (definite_pairs (pairs_df out)).
Proof.
  intros Hrun. rewrite (run_pairs _ _ _ _ _ _ Hrun).
  apply classified_valid, Hrun.
Qed.

(** [dedupe] returns as soon as the ratio never raises and there is a
    candidate pair. *)
Lemma dedupe_returns df td tp :
  (∀ x y, ∃ q, R x y = Ok q) → candidates_of df ≠ ∅ →
  ∃ out, dedupe R df td tp = Ok out.
Proof.
  intros HR Hne.
  destruct (score_pairs_total (roster_of df) (elements (candidates_of df)))
    as [pair_data Hpd].
  { intros [a b] Hc%elem_of_elements.
    apply candidates_valid in Hc as (_ & ra & rb & Ha & Hb).
    assert (∃ q, seq_ratio R (name_norm ra) (name_norm rb) = Ok q) as [q Hq].
    { unfold seq_ratio. destruct (_ && _); [by eexists|apply HR]. }
    eexists. exists ra, rb. split_and!; [done..|]. by apply score_pair_ok. }
  pose proof (score_pairs_ok _ _ _ Hpd) as HF.
  assert (pair_data ≠ []) as Hpd_ne.
  { intros ->. apply Forall2_nil_inv_r in HF.
    apply elements_empty_inv in HF. apply Hne. by apply leibniz_equiv. }
  destruct (cluster_definite_spec (length df)
              (definite_pairs (classified td tp pair_data)))
    as (p & clusters & Hc & _); [by apply classified_valid|].
  rewrite dedupe_unfold, Hpd.
  destruct pair_data as [|row0 rows0] eqn:Ep; [congruence|]. rewrite <- Ep in *.
  rewrite Hc. eexists. reflexivity.
Qed.

(** The clusters of a returned [Output]. *)
Lemma run_clusters_spec df td tp out pair_data clusters :
  run df td tp out pair_data clusters →
  ∃ p,
    wf p ∧ length p = length df ∧
    (∀ x y, x < length df → y < length df →
       root p x = root p y
       ↔ connected (length df) (definite_pairs (pairs_df out)) x y) ∧
    (∀ i, i < length df →
       clusters !! root p i = Some (cluster_of p (length df) i)) ∧
    (∀ i, i < length df →
       snd <$> roster_out out !! i
       = Some (cid_of (row_pid (roster_of df)) (cluster_of p (length df) i))).
Proof.
  intros Hrun.
  destruct (cluster_definite_spec (length df) (definite_pairs (pairs_df out)))
    as (p & clusters' & Hc & Hwf & Hlen & Hroot & Hm & Hids).
  { by eapply definite_valid. }
  pose proof (run_clusters _ _ _ _ _ _ Hrun) as Hc'.
  rewrite Hc in Hc'. injection Hc' as ->.
  exists p. split; [exact Hwf|]. split; [exact Hlen|]. split; [exact Hroot|].
  split.
  - intros i Hi. specialize (Hm (root p i)). unfold members_of in Hm.
    assert (i ∈ cluster_of p (length df) i) as Hin.
    { apply list_elem_of_filter. split; [done|]. apply elem_of_seq. lia. }
    unfold cluster_of in *. rewrite <- Hm in Hin |- *.
    destruct (clusters !! root p i); [done|by apply elem_of_nil in Hin].
  - intros i Hi. rewrite (run_roster _ _ _ _ _ _ Hrun). rewrite Hids.
    assert (is_Some (roster_of df !! i)) as [row Hrow].
    { apply lookup_lt_is_Some. unfold roster_of. rewrite length_map. done. }
    rewrite lookup_zip_with, Hrow.
    change (map ?f ?l) with (f <$> l). rewrite list_lookup_fmap.
    rewrite lookup_seq_lt by done. reflexivity.
Qed.

End WithRatio.

End Pipeline.

(** ** Clusters of a returned output *)

(** The column [dedup_cluster_id] of record [i]. *)
Definition cluster_id (out : Output) (i : nat) : option string :=
  snd <$> roster_out out !! i.

(** [ms] is the entry of [clusters] that holds record [i]. *)
Definition cluster_at (clusters : gmap nat (list nat)) (i : nat) (ms : list nat) : Prop :=
  ∃ root, clusters !! root = Some ms ∧ i ∈ ms.

Module Batch.
Import UFProps Clusters Canonical Pipeline.

(** The identifiers do not depend on the order of the unions. *)
Lemma dedup_ids_perm n E E' pid clusters :
  valid n E → E ≡ₚ E' → cluster_definite n E = Some clusters →
  ∃ clusters', cluster_definite n E' = Some clusters' ∧
               dedup_cluster_ids pid n clusters' = dedup_cluster_ids pid n clusters.
Proof.
  intros Hval HP Hc.
  destruct (cluster_definite_spec n E Hval)
    as (p & clusters0 & Hc0 & Hwf & Hlen & Hroot & _ & Hids).
  rewrite Hc in Hc0. injection Hc0 as <-.
  destruct (cluster_definite_spec n E')
    as (p' & clusters' & Hc' & Hwf' & Hlen' & Hroot' & _ & Hids').
  { intros a b Hab. apply Hval. by rewrite HP. }
  exists clusters'. split; [exact Hc'|].
  rewrite Hids, Hids'. apply map_ext_in. intros i Hi%list_elem_of_In%elem_of_seq.
  f_equal. unfold cluster_of. apply filter_ext_Forall, Forall_forall.
  intros j Hj%elem_of_seq.
  rewrite Hroot, Hroot' by lia. symmetry. by apply connected_perm.
Qed.

Lemma in_multi (clusters : gmap nat (list nat)) r ms :
  clusters !! r = Some ms → 1 < length ms →
  ms ∈ List.filter (fun c => (1 <? length c)%nat) (map snd (map_to_list clusters)).
Proof.
  intros Hr Hlen. apply list_elem_of_In, filter_In. split.
  - apply in_map_iff. exists (r, ms). split; [done|].
    by apply list_elem_of_In, elem_of_map_to_list.
  - by apply Nat.ltb_lt.
Qed.

(** The cluster of a record in a returned output. *)
Lemma cluster_of_record R df td tp out i :
  dedupe R df td tp = Ok out → i < length df →
  ∃ clusters ms,
    cluster_definite (length df) (definite_pairs (pairs_df out)) = Some clusters ∧
    cluster_at clusters i ms ∧
    (∀ j, j ∈ ms ↔
          j < length df ∧ connected (length df) (definite_pairs (pairs_df out)) i j) ∧
    (∀ j, j ∈ ms → cluster_id out j = Some (cid_of (row_pid (roster_of df)) ms)) ∧
    (1 < length ms → ms ∈ multi out).
Proof.
  intros Hd Hi.
  destruct (dedupe_inv R df td tp out Hd) as (pair_data & clusters & Hrun).
  destruct (run_clusters_spec R df td tp out pair_data clusters Hrun)
    as (p & Hwf & Hlen & Hroot & Hcl & Hid).
  exists clusters, (cluster_of p (length df) i).
  assert (∀ j, j ∈ cluster_of p (length df) i ↔ j < length df ∧ root p j = root p i)
    as Hmem.
  { intros j. unfold cluster_of. rewrite list_elem_of_filter, elem_of_seq. split.
    - intros [? ?]. split; [lia|done].
    - intros [? ?]. split; [done|lia]. }
  split; [exact (run_clusters _ _ _ _ _ _ _ Hrun)|]. split; [|split; [|split]].
  - exists (root p i). split; [by apply Hcl|]. by apply Hmem.
  - intros j. rewrite Hmem. split.
    + intros [Hj E]. split; [done|]. apply Hroot; [done..|]. by symmetry.
    + intros [Hj Hc]. split; [done|]. symmetry. by apply Hroot.
  - intros j [Hj E]%Hmem. unfold cluster_id. rewrite Hid by done.
    unfold cluster_of. by rewrite E.
  - intros Hlen'. rewrite (run_multi _ _ _ _ _ _ _ Hrun).
    eapply in_multi; [by apply Hcl|done].
Qed.

Lemma run_ids R df td tp out pair_data clusters :
  run R df td tp out pair_data clusters →
  map snd (roster_out out)
  = dedup_cluster_ids (row_pid (roster_of df)) (length df) clusters.
Proof.
  intros Hrun. rewrite (run_roster _ _ _ _ _ _ _ Hrun).
  change (map snd ?l) with (snd <$> l). apply snd_zip.
  unfold dedup_cluster_ids, roster_of. rewrite !length_map, length_seq. done.
Qed.

(** A definite row joins its two records. *)
Lemma definite_row_connected R df td tp out row a b :
  dedupe R df td tp = Ok out →
  (row, "definite") ∈ pairs_df out → row_of row a b →
  a < b ∧ b < length df ∧
  connected (length df) (definite_pairs (pairs_df out)) a b.
Proof.
  intros Hd Hin Hrow.
  destruct (dedupe_inv R df td tp out Hd) as (pair_data & clusters & Hrun).
  assert ((a, b) ∈ definite_pairs (pairs_df out)) as Hab.
  { apply definite_pairs_elem. by exists row. }
  split; [|split].
  - eapply pairs_df_elem in Hin as (_ & [a' b'] & Hc & Hs); [|done].
    apply scored_idx in Hs as [Ea Eb]. destruct Hrow as [Ha Hb]. simpl in *.
    apply candidates_valid in Hc as [? _]. lia.
  - by apply (definite_valid R df td tp out pair_data clusters Hrun a b).
  - by apply conn_edge.
Qed.

End Batch.

(** Records [a] and [b] are in one cluster of more than one record and
    carry the same [dedup_cluster_id]. *)
Definition merged (df : list Provider) (out : Output) (a b : nat) : Prop :=
  ∃ clusters ms cid,
    cluster_definite (length df) (definite_pairs (pairs_df out)) = Some clusters ∧
    cluster_at clusters a ms ∧ b ∈ ms ∧ ms ∈ multi out ∧
    cluster_id out a = Some cid ∧ cluster_id out b = Some cid.

Lemma two_members_length (ms : list nat) a b : a ∈ ms → b ∈ ms → a ≠ b → 1 < length ms.
Proof.
  intros Ha Hb Hne. destruct ms as [|x [|y ms]]; simpl; [|..|lia].
  - by apply elem_of_nil in Ha.
  - apply list_elem_of_singleton in Ha, Hb. congruence.
Qed.

Lemma definite_row_merged R df td tp out row a b :
  dedupe R df td tp = Ok out →
  (row, "definite") ∈ pairs_df out → row_of row a b →
  merged df out a b.
Proof.
  intros Hd Hin Hrow.
  destruct (Batch.definite_row_connected R df td tp out row a b Hd Hin Hrow)
    as (Hab & Hb & Hconn).
  destruct (Batch.cluster_of_record R df td tp out a Hd)
    as (clusters & ms & Hc & Hat & Hmem & Hid & Hmulti); [lia|].
  assert (a ∈ ms) as Ha by (by destruct Hat as (? & _ & ?)).
  assert (b ∈ ms) as Hbm by (by apply Hmem).
  exists clusters, ms, (Canonical.cid_of (row_pid (roster_of df)) ms).
  split; [exact Hc|]. split; [exact Hat|]. split; [exact Hbm|].
  split; [|split; by apply Hid].
  apply Hmulti. apply (two_members_length ms a b); [done..|lia].
Qed.

(** C5.  Clustering is transitive: when the rows of A-B and of B-C are both
    classified definite, the records A, B and C are members of one entry of
    [clusters] (one union-find root), which is reported among the clusters of
    more than one record, and the three carry the same [dedup_cluster_id];
    nothing is asked of the pair A-C. *)
Theorem definite_chain_same_cluster R df td tp out a b c rAB rBC :
  dedupe R df td tp = Ok out →
  (rAB, "definite") ∈ pairs_df out → (rBC, "definite") ∈ pairs_df out →
  row_of rAB a b ∨ row_of rAB b a →
  row_of rBC b c ∨ row_of rBC c b →
  ∃ clusters ms cid,
    cluster_definite (length df) (definite_pairs (pairs_df out)) = Some clusters ∧
    cluster_at clusters a ms ∧ b ∈ ms ∧ c ∈ ms ∧ ms ∈ multi out ∧
    cluster_id out a = Some cid ∧ cluster_id out b = Some cid ∧
    cluster_id out c = Some cid.
Proof.
  intros Hd HAB HBC Hab Hbc.
  set (n := length df). set (E := definite_pairs (pairs_df out)).
  assert (a < n ∧ b < n ∧ a ≠ b ∧ Clusters.connected n E a b) as (Ha & Hb & Hne & Hcab).
  { destruct Hab as [Hr|Hr];
      destruct (Batch.definite_row_connected R df td tp out rAB _ _ Hd HAB Hr)
        as (? & ? & ?); split_and!; try (unfold n; lia); try done.
    by apply Clusters.conn_sym. }
  assert (c < n ∧ Clusters.connected n E b c) as (Hc & Hcbc).
  { destruct Hbc as [Hr|Hr];
      destruct (Batch.definite_row_connected R df td tp out rBC _ _ Hd HBC Hr)
        as (? & ? & ?); split; try (unfold n; lia); try done.
    by apply Clusters.conn_sym. }
  destruct (Batch.cluster_of_record R df td tp out a Hd Ha)
    as (clusters & ms & Hcl & Hat & Hmem & Hid & Hmulti).
  assert (a ∈ ms) as Ham by (by destruct Hat as (? & _ & ?)).
  assert (b ∈ ms) as Hbm by (by apply Hmem).
  assert (c ∈ ms) as Hcm.
  { apply Hmem. split; [done|]. by eapply Clusters.conn_trans. }
  exists clusters, ms, (Canonical.cid_of (row_pid (roster_of df)) ms).
  split; [exact Hcl|]. split; [exact Hat|]. split; [exact Hbm|].
  split; [exact Hcm|]. split; [|split_and!; by apply Hid].
  apply Hmulti. by apply (two_members_length ms a b).
Qed.

(** C4.  In a returned output every record [i] sits in one entry [ms] of
    [clusters], and every member of [ms] carries the same
    [dedup_cluster_id].  When [ms] has more than one member, the identifier
    is the provider id of a member and is lexicographically least among the
    provider ids of the members; when [i] is alone, it is the provider id of
    [i].  Processing the definite pairs in any other order gives the same
    column. *)
Theorem canonical_id_least R df td tp out i :
  dedupe R df td tp = Ok out → i < length df →
  ∃ clusters ms cid,
    cluster_definite (length df) (definite_pairs (pairs_df out)) = Some clusters ∧
    cluster_at clusters i ms ∧
    (∀ j, j ∈ ms → cluster_id out j = Some cid) ∧
    (1 < length ms →
       (∃ m, m ∈ ms ∧ cid = row_pid (roster_of df) m) ∧
       ∀ m, m ∈ ms → String.le cid (row_pid (roster_of df) m)) ∧
    (length ms = 1 → cid = row_pid (roster_of df) i) ∧
    ∀ E', definite_pairs (pairs_df out) ≡ₚ E' →
      ∃ clusters',
        cluster_definite (length df) E' = Some clusters' ∧
        dedup_cluster_ids (row_pid (roster_of df)) (length df) clusters'
        = map snd (roster_out out).
Proof.
  intros Hd Hi.
  destruct (Batch.cluster_of_record R df td tp out i Hd Hi)
    as (clusters & ms & Hcl & Hat & Hmem & Hid & _).
  assert (i ∈ ms) as Him by (by destruct Hat as (? & _ & ?)).
  exists clusters, ms, (Canonical.cid_of (row_pid (roster_of df)) ms).
  split; [exact Hcl|]. split; [exact Hat|]. split; [exact Hid|].
  split; [|split].
  - intros Hlen. unfold Canonical.cid_of.
    rewrite decide_False by lia.
    destruct (Canonical.canonical_id_min (map (row_pid (roster_of df)) ms))
      as [Hin Hmin].
    { destruct ms; [simpl in Hlen; lia|done]. }
    split.
    + apply list_elem_of_In, in_map_iff in Hin as (m & Hm & Hin).
      exists m. split; [by apply list_elem_of_In|done].
    + intros m Hm. apply Hmin, list_elem_of_In, in_map_iff.
      exists m. split; [done|by apply list_elem_of_In].
  - intros Hlen. unfold Canonical.cid_of. rewrite decide_True by done.
    destruct ms as [|m [|? ?]]; try done.
    apply list_elem_of_singleton in Him as ->. done.
  - intros E' HP.
    destruct (Pipeline.dedupe_inv R df td tp out Hd) as (pair_data & clusters0 & Hrun).
    pose proof (Pipeline.run_clusters _ _ _ _ _ _ _ Hrun) as Hcl0.
    rewrite Hcl in Hcl0. injection Hcl0 as <-.
    rewrite (Batch.run_ids R df td tp out pair_data clusters Hrun).
    eapply Batch.dedup_ids_perm; [|exact HP|exact Hcl].
    by eapply Pipeline.definite_valid.
Qed.

Lemma definite_chain_same_cluster_witness :
  ∃ out ms cid,
    dedupe Difflib.ratio Examples.chain_roster 5 3 = Ok out ∧
    ((0, 2) ∉ candidates_of Examples.chain_roster) ∧
    ms ∈ multi out ∧ 0 ∈ ms ∧ 1 ∈ ms ∧ 2 ∈ ms ∧
    cluster_id out 0 = Some cid ∧ cluster_id out 2 = Some cid.
Proof.
  eassert (dedupe Difflib.ratio Examples.chain_roster 5 3 = Ok _) as Hd
    by (vm_compute; reflexivity).
  edestruct definite_chain_same_cluster with (a := 0) (b := 1) (c := 2)
    as (clusters & ms & cid & _ & (r & _ & H0) & H1 & H2 & Hm & Hc0 & _ & Hc2).
  - exact Hd.
  - apply list_elem_of_here.
  - apply list_elem_of_further, list_elem_of_here.
  - left. split; reflexivity.
  - left. split; reflexivity.
  - eexists _, ms, cid. split; [exact Hd|]. split; [by vm_compute|].
    split; [exact Hm|]. split; [exact H0|]. split; [exact H1|].
    split; [exact H2|]. split; [exact Hc0|exact Hc2].
Defined.

Lemma canonical_id_least_witness :
  ∃ out clusters ms cid,
    dedupe Difflib.ratio Examples.chain_roster 5 3 = Ok out ∧
    cluster_at clusters 0 ms ∧
    (∀ j, j ∈ ms → cluster_id out j = Some cid) ∧
    (1 < length ms →
       ∀ m, m ∈ ms → String.le cid (row_pid (roster_of Examples.chain_roster) m)).
Proof.
  eassert (dedupe Difflib.ratio Examples.chain_roster 5 3 = Ok _) as Hd
    by (vm_compute; reflexivity).
  destruct (canonical_id_least _ _ _ _ _ 0 Hd)
    as (clusters & ms & cid & _ & Hat & Hid & Hmin & _); [simpl; lia|].
  eexists _, clusters, ms, cid. split; [exact Hd|]. split; [exact Hat|].
  split; [exact Hid|]. intros Hlen. by apply Hmin.
Defined.

(** ** Pairs that are always merged *)

Lemma seq_ratio_nonneg R a b :
  (∀ x y, ∃ q, R x y = Ok q ∧ (0 <= q)%Q) →
  ∃ q, seq_ratio R a b = Ok q ∧ (0 <= q)%Q.
Proof.
  intros HR. unfold seq_ratio. destruct (_ && _); [|apply HR].
  exists 1%Q. split; [done|]. unfold Qle. simpl. lia.
Qed.

Lemma difflib_ratio_nonneg x y : ∃ q, Difflib.ratio x y = Ok q ∧ (0 <= q)%Q.
Proof.
  unfold Difflib.ratio, Difflib.ratio_chars. eexists. split; [reflexivity|].
  destruct (_ =? _)%nat; [unfold Qle; simpl; lia|].
  rewrite Qred_correct. unfold Qle. simpl. lia.
Qed.

Lemma difflib_ratio_total x y : ∃ q, Difflib.ratio x y = Ok q.
Proof. by eexists. Qed.

(** A candidate pair is scored and reported once the ratio never raises. *)
Lemma candidate_row R df td tp a b ra rb q :
  (∀ x y, ∃ q, R x y = Ok q) →
  (a, b) ∈ candidates_of df →
  roster_of df !! a = Some ra → roster_of df !! b = Some rb →
  seq_ratio R (name_norm ra) (name_norm rb) = Ok q →
  ∃ out row,
    dedupe R df td tp = Ok out ∧
    (row, classify td tp (score row)) ∈ pairs_df out ∧ row_of row a b ∧
    score row
    = accumulate (npi_eq ra rb) (lic_eq ra rb) (ph4_eq ra rb) (tax_eq ra rb)
        (npi_conflict ra rb) q
        (token_overlap (name_norm ra) (name_norm rb))
        (token_overlap (addr_norm ra) (addr_norm rb)).
Proof.
  intros HR Hc Ha Hb Hq.
  destruct (Pipeline.dedupe_returns R df td tp HR) as [out Hd].
  { intros E. rewrite E in Hc. by apply not_elem_of_empty in Hc. }
  destruct (Pipeline.dedupe_inv R df td tp out Hd) as (pair_data & clusters & Hrun).
  pose proof (score_pair_ok R a b ra rb q Hq) as Hrow.
  match type of Hrow with _ = Ok ?r => exists out, r end.
  split; [exact Hd|]. split; [|split; [split; reflexivity|reflexivity]].
  eapply Pipeline.pairs_df_elem; [exact Hrun|]. split; [reflexivity|].
  exists (a, b). split; [exact Hc|]. exists ra, rb.
  split; [exact Ha|]. split; [exact Hb|exact Hrow].
Qed.

(** C6.  A candidate pair whose records agree on a non-empty NPI and on a
    non-empty licence state and number scores at least 11.0 (6.0 + 5.0, the
    NPI conflict cannot apply); with a definite threshold of at most 11.0,
    as the default 5.0 is, the pair is classified definite and its two
    records are in one cluster.  The ratio is assumed to return a value that
    is not negative. *)
Theorem npi_license_pair_definite R df td tp a b ra rb :
  (∀ x y, ∃ q, R x y = Ok q ∧ (0 <= q)%Q) →
  (td <= 11)%Q →
  (a, b) ∈ candidates_of df →
  roster_of df !! a = Some ra → roster_of df !! b = Some rb →
  npi_norm ra ≠ "" → npi_norm ra = npi_norm rb →
  license_norm ra ≠ "" → license_norm ra = license_norm rb →
  license_state_norm ra ≠ "" → license_state_norm ra = license_state_norm rb →
  ∃ out row,
    dedupe R df td tp = Ok out ∧
    (row, "definite") ∈ pairs_df out ∧ row_of row a b ∧
    (11 <= score row)%Q ∧ merged df out a b.
Proof.
  intros HR Htd Hc Ha Hb Hn1 Hn2 Hl1 Hl2 Hs1 Hs2.
  destruct (seq_ratio_nonneg R (name_norm ra) (name_norm rb) HR) as (q & Hq & Hq0).
  destruct (candidate_row R df td tp a b ra rb q) as (out & row & Hd & Hin & Hrow & Hscore);
    [intros x y; destruct (HR x y) as (q' & ? & _); by exists q'|done..|].
  assert (11 <= score row)%Q as Hge.
  { rewrite Hscore.
    assert (npi_eq ra rb = true) as -> by (by apply both_eq_true).
    assert (lic_eq ra rb = true) as ->.
    { unfold lic_eq. rewrite <- Hl2, <- Hs2, !String.eqb_refl.
      apply truthy_true in Hl1, Hs1. by rewrite Hl1, Hs1. }
    assert (npi_conflict ra rb = false) as ->.
    { unfold npi_conflict. rewrite <- Hn2, String.eqb_refl. simpl.
      by rewrite andb_false_r. }
    pose proof (token_overlap_nonneg (name_norm ra) (name_norm rb)).
    pose proof (token_overlap_nonneg (addr_norm ra) (addr_norm rb)).
    unfold accumulate. destruct (ph4_eq ra rb), (tax_eq ra rb); lra. }
  rewrite classify_definite in Hin by lra.
  exists out, row. split; [exact Hd|]. split; [exact Hin|]. split; [exact Hrow|].
  split; [exact Hge|]. by eapply definite_row_merged.
Qed.

Lemma npi_license_pair_definite_witness :
  ∃ out row,
    dedupe Difflib.ratio [Examples.s1_a; Examples.s1_b] 5 3 = Ok out ∧
    (row, "definite") ∈ pairs_df out ∧ row_of row 0 1 ∧
    (11 <= score row)%Q ∧ merged [Examples.s1_a; Examples.s1_b] out 0 1.
Proof.
  eapply npi_license_pair_definite;
    [apply difflib_ratio_nonneg | unfold Qle; simpl; lia | by vm_compute
    | reflexivity | reflexivity | done | reflexivity | done | reflexivity
    | done | reflexivity].
Defined.

(** ** Two records that share a phone suffix only *)

Lemma phone_pair_candidate df a b ra rb :
  a < b → roster_of df !! a = Some ra → roster_of df !! b = Some rb →
  phone_last4_col ra ≠ "" → phone_last4_col ra = phone_last4_col rb →
  (a, b) ∈ candidates_of df.
Proof.
  intros Hab Ha Hb Hne Heq. apply Blocking.candidate_pairs_elem.
  exists ("PH4::" +:+ phone_last4_col ra). split; [|split; [|done]].
  - apply Blocking.blocks_members. exists ra. split; [done|].
    apply Blocking.block_keys_spec. by constructor.
  - apply Blocking.blocks_members. exists rb. split; [done|].
    apply Blocking.block_keys_spec. rewrite Heq. constructor. by rewrite <- Heq.
Qed.

(** C10, as the code has it.  Two records whose names and addresses are all
    empty, that agree on a non-empty phone suffix, that pass no other
    equality test and whose NPIs are not in conflict form a candidate pair;
    its score is 3.0 + 1.0 + 1.5 + 0.8 = 6.3, it is classified definite under
    the default thresholds and the two records are merged. *)
Theorem phone_only_pair_merged R df a b ra rb :
  (∀ x y, ∃ q, R x y = Ok q) →
  a < b → roster_of df !! a = Some ra → roster_of df !! b = Some rb →
  name_norm ra = "" → name_norm rb = "" →
  addr_norm ra = "" → addr_norm rb = "" →
  phone_last4_col ra ≠ "" → phone_last4_col ra = phone_last4_col rb →
  npi_eq ra rb = false → lic_eq ra rb = false → tax_eq ra rb = false →
  npi_conflict ra rb = false →
  ∃ out row,
    (a, b) ∈ candidates_of df ∧
    dedupe R df 5 3 = Ok out ∧
    (row, "definite") ∈ pairs_df out ∧ row_of row a b ∧
    (score row == 6.3)%Q ∧ merged df out a b.
Proof.
  intros HR Hab Ha Hb Hna Hnb Haa Hab' Hp1 Hp2 Hnpi Hlic Htax Hconf.
  pose proof (phone_pair_candidate df a b ra rb Hab Ha Hb Hp1 Hp2) as Hc.
  destruct (candidate_row R df 5 3 a b ra rb 1) as (out & row & Hd & Hin & Hrow & Hscore);
    [done..|by rewrite Hna, Hnb|].
  assert (score row == 6.3)%Q as Hs.
  { rewrite Hscore, Hnpi, Hlic, Htax, Hconf, Hna, Hnb, Haa, Hab'.
    assert (ph4_eq ra rb = true) as -> by (by apply both_eq_true).
    reflexivity. }
  rewrite classify_definite in Hin by (rewrite Hs; unfold Qle; simpl; lia).
  exists out, row. split; [exact Hc|]. split; [exact Hd|]. split; [exact Hin|].
  split; [exact Hrow|]. split; [exact Hs|]. by eapply definite_row_merged.
Qed.

Lemma phone_only_pair_merged_witness :
  ∃ out row,
    (0, 1) ∈ candidates_of [Examples.ph_a; Examples.ph_b] ∧
    dedupe Difflib.ratio [Examples.ph_a; Examples.ph_b] 5 3 = Ok out ∧
    (row, "definite") ∈ pairs_df out ∧ row_of row 0 1 ∧
    (score row == 6.3)%Q ∧ merged [Examples.ph_a; Examples.ph_b] out 0 1.
Proof.
  eapply phone_only_pair_merged;
    [apply difflib_ratio_total | lia | reflexivity | reflexivity
    | reflexivity | reflexivity | reflexivity | reflexivity | done
    | reflexivity | reflexivity | reflexivity | reflexivity | reflexivity].
Defined.

(** The claim of the spec fails on [Examples.ph_a] and [Examples.ph_b]: the
    names and addresses are empty, the phone suffix [0101] is the only field
    the two records share, and the score of the pair is not 7.3. *)
Lemma phone_only_pair_counterexample :
  let ra := normalize_row Examples.ph_a in
  let rb := normalize_row Examples.ph_b in
  name_norm ra = "" ∧ name_norm rb = "" ∧ addr_norm ra = "" ∧ addr_norm rb = "" ∧
  phone_last4_col ra = "0101" ∧ phone_last4_col rb = "0101" ∧
  npi_norm ra = "" ∧ npi_norm rb = "" ∧ license_norm ra = "" ∧ license_norm rb = "" ∧
  tax_norm ra = "" ∧ tax_norm rb = "" ∧
  ∃ out row,
    dedupe Difflib.ratio [Examples.ph_a; Examples.ph_b] 5 3 = Ok out ∧
    pairs_df out = [(row, "definite")] ∧ row_of row 0 1 ∧
    ¬ (score row == 7.3)%Q.
Proof.
  repeat (split; [reflexivity|]).
  eexists _, _. split; [vm_compute; reflexivity|].
  split; [reflexivity|]. split; [split; reflexivity|]. by vm_compute.
Qed.

(** ** [normalize_name] applied twice *)

Module NameProps.

(** *** Characters *)

(** A character whose class [\w] is decided by [[a-z0-9]]: neither an upper
    case letter nor the underscore. *)
Definition settled (c : ascii) : bool :=
  Bool.eqb (Char.is_word c) (Char.is_alnum_lc c).

(** An ASCII character other than the underscore. *)
Definition plain (c : ascii) : bool :=
  (Char.code c <? 128)%N && negb (Char.code c =? 95)%N.

Ltac by_cases_on c :=
  destruct c as [[] [] [] [] [] [] [] []]; vm_compute; try reflexivity;
  try discriminate; auto.

Lemma plain_lower_settled c : plain c = true → settled (Char.lower c) = true.
Proof. by_cases_on c. Qed.

Lemma space_not_word c : Char.is_space c = true → Char.is_word c = false.
Proof. by_cases_on c. Qed.

Lemma alnum_is_word c : Char.is_alnum_lc c = true → Char.is_word c = true.
Proof. by_cases_on c. Qed.

Lemma alnum_not_space c : Char.is_alnum_lc c = true → Char.is_space c = false.
Proof. by_cases_on c. Qed.

Lemma alnum_lower c : Char.is_alnum_lc c = true → Char.lower c = c.
Proof. by_cases_on c. Qed.

Lemma alnum_not_dot_comma c : Char.is_alnum_lc c = true → is_dot_comma c = false.
Proof. by_cases_on c. Qed.

Lemma settled_word c :
  settled c = true → Char.is_word c = true → Char.is_alnum_lc c = true.
Proof. by_cases_on c. Qed.

(** The characters that the normal form is made of. *)
Definition out_char (c : ascii) : Prop := Char.is_alnum_lc c = true ∨ c = " "%char.

Lemma out_char_lower c : out_char c → Char.lower c = c.
Proof. intros [H| ->]; [by apply alnum_lower|done]. Qed.

Lemma out_char_dot_comma c : out_char c → is_dot_comma c = false.
Proof. intros [H| ->]; [by apply alnum_not_dot_comma|done]. Qed.

Lemma out_char_alnum_space c : out_char c → not_alnum_space c = false.
Proof.
  unfold not_alnum_space. intros [H| ->]; [by rewrite H|done].
Qed.

Lemma out_char_settled c : out_char c → settled c = true.
Proof. intros [H| ->]; [|done]. revert H. by_cases_on c. Qed.

(** *** [strip] and the white-space substitution *)

Lemma rstrip_cons_nonspace c r :
  Char.is_space c = false → Py.rstrip (c :: r) = c :: Py.rstrip r.
Proof. intros H. simpl. rewrite H. by destruct (Py.rstrip r). Qed.

Lemma rstrip_idem l : Py.rstrip (Py.rstrip l) = Py.rstrip l.
Proof.
  induction l as [|c r IH]; [done|]. simpl.
  destruct (Py.rstrip r) as [|d r'] eqn:E.
  - destruct (Char.is_space c) eqn:Ec; [done|]. simpl. by rewrite Ec.
  - change (Py.rstrip (c :: d :: r')) with
      (match Py.rstrip (d :: r') with
       | [] => if Char.is_space c then [] else [c]
       | r'' => c :: r''
       end).
    by rewrite IH.
Qed.

Lemma lstrip_head l :
  Py.lstrip l = [] ∨ ∃ c r, Py.lstrip l = c :: r ∧ Char.is_space c = false.
Proof.
  induction l as [|c r IH]; [by left|]. simpl.
  destruct (Char.is_space c) eqn:E; [done|]. right. by exists c, r.
Qed.

Lemma strip_idem l : Py.strip (Py.strip l) = Py.strip l.
Proof.
  unfold Py.strip. destruct (lstrip_head l) as [->|(c & r & -> & Hc)]; [done|].
  rewrite rstrip_cons_nonspace by done. simpl. rewrite Hc.
  rewrite <- (rstrip_cons_nonspace c r Hc). apply rstrip_idem.
Qed.

Lemma Forall_lstrip (P : ascii → Prop) l : Forall P l → Forall P (Py.lstrip l).
Proof.
  induction 1 as [|c r Hc Hr IH]; [done|]. simpl.
  destruct (Char.is_space c); [done|by constructor].
Qed.

Lemma Forall_rstrip (P : ascii → Prop) l : Forall P l → Forall P (Py.rstrip l).
Proof.
  induction 1 as [|c r Hc Hr IH]; [done|]. simpl.
  destruct (Py.rstrip r); [|by constructor].
  destruct (Char.is_space c); [done|by constructor].
Qed.

Lemma Forall_strip (P : ascii → Prop) l : Forall P l → Forall P (Py.strip l).
Proof. intros H. by apply Forall_rstrip, Forall_lstrip. Qed.

Lemma Forall_sub_class (P : ascii → Prop) cls l :
  P " "%char → Forall P l → Forall P (Py.sub_class cls l).
Proof.
  intros Hsp. induction 1 as [|c r Hc Hr IH]; [done|]. simpl.
  constructor; [by destruct (cls c)|done].
Qed.

(** The result of [sub_ws] has single blanks as its only white space. *)
Fixpoint single_spaced (after_space : bool) (l : list ascii) : Prop :=
  match l with
  | [] => True
  | c :: r =>
      if Char.is_space c
      then after_space = false ∧ c = " "%char ∧ single_spaced true r
      else single_spaced false r
  end.

Lemma sub_ws_single_spaced l : ∀ b, single_spaced b (Py.sub_ws b l).
Proof.
  induction l as [|c r IH]; intros b; [done|]. simpl.
  destruct (Char.is_space c) eqn:E.
  - destruct b; [apply IH|]. simpl. split_and!; [done..|apply IH].
  - simpl. rewrite E. apply IH.
Qed.

Lemma single_spaced_fixed l : ∀ b, single_spaced b l → Py.sub_ws b l = l.
Proof.
  induction l as [|c r IH]; intros b H; [done|]. simpl in *.
  destruct (Char.is_space c).
  - destruct H as (-> & -> & H). by rewrite IH.
  - by rewrite IH.
Qed.

Lemma single_spaced_lstrip l b : single_spaced b l → single_spaced false (Py.lstrip l).
Proof.
  revert b. induction l as [|c r IH]; intros b H; [done|]. simpl in *.
  destruct (Char.is_space c) eqn:E.
  - destruct H as (_ & _ & H). by eapply IH.
  - simpl. by rewrite E.
Qed.

Lemma single_spaced_rstrip l : ∀ b, single_spaced b l → single_spaced b (Py.rstrip l).
Proof.
  induction l as [|c r IH]; intros b H; [done|]. simpl in *.
  destruct (Char.is_space c) eqn:E.
  - destruct H as (-> & -> & H). apply IH in H.
    destruct (Py.rstrip r); [done|]. by split_and!.
  - apply IH in H. destruct (Py.rstrip r); simpl; by rewrite E.
Qed.

Lemma Forall_sub_ws (P : ascii → Prop) l b :
  P " "%char → Forall P l → Forall P (Py.sub_ws b l).
Proof.
  intros Hsp H. revert b. induction H as [|c r Hc Hr IH]; intros b; [done|]. simpl.
  destruct (Char.is_space c); [destruct b|]; try constructor; auto.
Qed.

(** *** Words and the deletion of whole words *)

(** The longest prefix made of characters of the class [\w]. *)
Fixpoint word_prefix (l : list ascii) : list ascii :=
  match l with
  | c :: r => if Char.is_word c then c :: word_prefix r else []
  | [] => []
  end.

(** An alternative of the pattern: a non-empty text of word characters. *)
Definition wordy (p : list ascii) : Prop :=
  p ≠ [] ∧ Forall (fun c => Char.is_word c = true) p.

Lemma honorifics_wordy : Forall wordy honorifics.
Proof. repeat constructor; try done; by vm_compute. Qed.

Lemma prefix_rest_app p rest : Py.prefix_rest p (p ++ rest) = Some rest.
Proof.
  induction p as [|a p IH]; [done|]. simpl. by rewrite Ascii.eqb_refl.
Qed.

Lemma prefix_rest_Some p : ∀ s rest, Py.prefix_rest p s = Some rest → s = p ++ rest.
Proof.
  induction p as [|a p IH]; intros s rest H; simpl in H; [by simplify_eq|].
  destruct s as [|b s]; [done|].
  destruct (Ascii.eqb_spec a b) as [->|]; [|done]. simpl. f_equal. by apply IH.
Qed.

Lemma word_prefix_app p rest :
  Forall (fun c => Char.is_word c = true) p → Py.is_word_opt (head rest) = false →
  word_prefix (p ++ rest) = p.
Proof.
  intros Hp Hrest. induction Hp as [|c p Hc _ IH]; simpl.
  - destruct rest as [|d rest]; [done|]. simpl in *. by rewrite Hrest.
  - by rewrite Hc, IH.
Qed.

Lemma word_prefix_split l :
  ∃ rest, l = word_prefix l ++ rest ∧ Py.is_word_opt (head rest) = false.
Proof.
  induction l as [|c r (rest & IH & Hrest)]; [by exists []|]. simpl.
  destruct (Char.is_word c) eqn:E.
  - exists rest. split; [simpl; by f_equal|done].
  - exists (c :: r). by split.
Qed.

Lemma last_wordy p : wordy p → Py.is_word_opt (Py.last_opt p) = true.
Proof.
  intros [Hne Hp]. unfold Py.last_opt.
  destruct (last p) as [c|] eqn:E.
  - simpl. eapply Forall_forall in Hp; [done|].
    apply last_Some in E as [l' ->]. apply elem_of_app. right. by left.
  - apply last_None in E. done.
Qed.

Lemma match_alt_Some alts s n :
  Forall wordy alts → Py.match_alt alts s = Some n →
  n = length (word_prefix s) ∧ word_prefix s ∈ alts ∧ 0 < n.
Proof.
  induction 1 as [|p alts Hp _ IH]; [done|]. simpl.
  destruct (Py.prefix_rest p s) as [rest|] eqn:E.
  - unfold Py.boundary. rewrite (last_wordy p Hp). simpl.
    destruct (Py.is_word_opt (head rest)) eqn:Er; simpl.
    + intros (? & ? & ?)%IH. split_and!; [done|by right|done].
    + intros [= <-]. apply prefix_rest_Some in E as ->.
      destruct Hp as [Hne Hp]. rewrite word_prefix_app by done.
      split_and!; [done|by left|]. destruct p; [done|simpl; lia].
  - intros (? & ? & ?)%IH. split_and!; [done|by right|done].
Qed.

Lemma match_alt_None alts s :
  Forall wordy alts → Py.match_alt alts s = None → word_prefix s ∉ alts.
Proof.
  induction 1 as [|p alts Hp _ IH]; [intros _; apply not_elem_of_nil|]. simpl.
  destruct (word_prefix_split s) as (rest & Hs & Hrest).
  intros Hm [Heq|Hin]%elem_of_cons.
  - rewrite Hs, Heq, prefix_rest_app in Hm.
    unfold Py.boundary in Hm. rewrite (last_wordy p Hp), Hrest in Hm. done.
  - destruct (Py.prefix_rest p s) as [rest'|]; [|by apply IH].
    destruct (Py.boundary _ _); [done|by apply IH].
Qed.

(** No word of [l] is one of [alts]; [after_word] tells that the character
    before [l] is a word character. *)
Fixpoint nohon (alts : list (list ascii)) (after_word : bool) (l : list ascii) : Prop :=
  match l with
  | [] => True
  | c :: r =>
      (after_word = false → Char.is_word c = true → word_prefix l ∉ alts)
      ∧ nohon alts (Char.is_word c) r
  end.

Section Deletion.

Variable alts : list (list ascii).
Hypothesis alts_wordy : Forall wordy alts.

Lemma del_words_emit prev c r :
  (Py.boundary prev (Some c) = true → Py.match_alt alts (c :: r) = None) →
  Py.del_words alts prev 0 (c :: r) = c :: Py.del_words alts (Some c) 0 r.
Proof.
  intros H. simpl. destruct (Py.boundary prev (Some c)); [|done].
  by rewrite H.
Qed.

Lemma match_alt_nonword c r : Char.is_word c = false → Py.match_alt alts (c :: r) = None.
Proof.
  intros Hc. destruct (Py.match_alt alts (c :: r)) as [n|] eqn:E; [|done].
  apply match_alt_Some in E as (-> & _ & Hn); [|done].
  simpl in Hn. rewrite Hc in Hn. simpl in Hn. lia.
Qed.

Lemma word_prefix_del_words r : ∀ prev,
  Py.is_word_opt prev = true →
  word_prefix (Py.del_words alts prev 0 r) = word_prefix r.
Proof.
  induction r as [|d r IH]; intros prev Hprev; [done|].
  rewrite del_words_emit.
  - simpl. destruct (Char.is_word d) eqn:Ed; [|done]. by rewrite IH.
  - unfold Py.boundary. rewrite Hprev. simpl.
    destruct (Char.is_word d) eqn:Ed; [done|]. intros _. by apply match_alt_nonword.
Qed.

(** The output of the deletion has none of the alternatives as a word. *)
Lemma del_words_nohon x : ∀ prev k pw,
  (k = 0 ∧ Py.is_word_opt prev = pw) ∨ (pw = false ∧ k = length (word_prefix x)) →
  nohon alts pw (Py.del_words alts prev k x).
Proof.
  induction x as [|c r IH]; intros prev k pw Hst; [done|].
  destruct k as [|k].
  - destruct (Py.match_alt alts (c :: r)) as [n|] eqn:Em.
    + (* a match is possible here *)
      pose proof Em as (-> & Hin & Hn)%match_alt_Some; [|done].
      simpl in Hn. destruct (Char.is_word c) eqn:Ec; [|simpl in Hn; lia].
      destruct Hst as [[_ Hpw]|[-> Hk]]; [|simpl in Hk; rewrite Ec in Hk; done].
      destruct pw.
      * (* inside a word: no boundary, the character is kept *)
        rewrite del_words_emit.
        -- split; [done|]. apply IH. left. by rewrite Ec.
        -- unfold Py.boundary. rewrite Hpw. simpl. by rewrite Ec.
      * (* a word starts and is deleted *)
        simpl Py.del_words. unfold Py.boundary at 1. rewrite Hpw. simpl.
        rewrite Ec. cbn [xorb]. simpl in Em. rewrite Em.
        rewrite Ec. simpl. apply IH. right. done.
    + rewrite del_words_emit by done. split.
      * intros _ Hw. simpl. rewrite Hw, word_prefix_del_words by done.
        apply match_alt_None in Em; [|done]. simpl in Em. by rewrite Hw in Em.
      * apply IH. left. done.
  - destruct Hst as [[? _]|[-> Hk]]; [done|]. simpl in Hk.
    destruct (Char.is_word c) eqn:Ec; [|done]. simpl in Hk.
    simpl. apply IH. right. split; [done|lia].
Qed.

(** With none of the alternatives as a word, the deletion changes nothing. *)
Lemma nohon_del_words l : ∀ prev,
  nohon alts (Py.is_word_opt prev) l → Py.del_words alts prev 0 l = l.
Proof.
  induction l as [|c r IH]; intros prev H; [done|]. destruct H as [Hc Hr].
  rewrite del_words_emit; [f_equal; by apply IH|].
  unfold Py.boundary. simpl.
  destruct (Py.is_word_opt prev) eqn:Ep, (Char.is_word c) eqn:Ec; simpl; try done.
  - intros _. by apply match_alt_nonword.
  - intros _. destruct (Py.match_alt alts (c :: r)) as [n|] eqn:Em; [|done].
    apply match_alt_Some in Em as (_ & Hin & _); [|done]. by destruct Hc.
Qed.

Lemma Forall_del_words (P : ascii → Prop) x :
  Forall P x → ∀ prev k, Forall P (Py.del_words alts prev k x).
Proof.
  induction 1 as [|c r Hc Hr IH]; intros prev k; [done|]. simpl.
  destruct k; [|done].
  destruct (Py.boundary _ _); [|by constructor].
  destruct (Py.match_alt _ _) as [[|?]|]; try done; by constructor.
Qed.

(** *** The later steps keep the words *)

Lemma word_prefix_map (g : ascii → ascii) l :
  Forall (fun c => if Char.is_word c then g c = c else Char.is_word (g c) = false) l →
  word_prefix (map g l) = word_prefix l.
Proof.
  induction 1 as [|c r Hc _ IH]; [done|]. simpl.
  destruct (Char.is_word c) eqn:Ec.
  - by rewrite Hc, Ec, IH.
  - by rewrite Hc.
Qed.

Lemma nohon_map (g : ascii → ascii) l : ∀ pw,
  Forall (fun c => if Char.is_word c then g c = c else Char.is_word (g c) = false) l →
  nohon alts pw l → nohon alts pw (map g l).
Proof.
  induction l as [|c r IH]; intros pw Hg H; [done|]. destruct H as [Hc Hr].
  pose proof (word_prefix_map g (c :: r) Hg) as Hwp.
  apply Forall_cons in Hg as [Hgc Hg]. split.
  - change (word_prefix (map g (c :: r)) ∉ alts) with
      (word_prefix (g c :: map g r) ∉ alts) in *.
    intros Hpw Hw. cbn [map] in Hwp. rewrite Hwp. apply Hc; [done|].
    destruct (Char.is_word c); [done|congruence].
  - assert (Char.is_word (g c) = Char.is_word c) as ->.
    { destruct (Char.is_word c) eqn:Ec; [by rewrite Hgc|done]. }
    by apply IH.
Qed.

Lemma word_prefix_sub_ws r : word_prefix (Py.sub_ws false r) = word_prefix r.
Proof.
  induction r as [|c r IH]; [done|]. simpl.
  destruct (Char.is_space c) eqn:Es.
  - simpl. by rewrite (space_not_word c Es).
  - simpl. by rewrite IH.
Qed.

Lemma nohon_sub_ws l : ∀ pw b,
  (b = true → pw = false) → nohon alts pw l → nohon alts pw (Py.sub_ws b l).
Proof.
  induction l as [|c r IH]; intros pw b Hb H; [done|]. destruct H as [Hc Hr].
  simpl. destruct (Char.is_space c) eqn:Es.
  - rewrite (space_not_word c Es) in Hr. destruct b.
    + rewrite Hb by done. by apply IH.
    + split; [done|]. by apply IH.
  - split.
    + intros Hpw Hw. simpl. rewrite Hw, word_prefix_sub_ws.
      specialize (Hc Hpw Hw). simpl in Hc. by rewrite Hw in Hc.
    + by apply IH.
Qed.

Lemma nohon_lstrip l : nohon alts false l → nohon alts false (Py.lstrip l).
Proof.
  induction l as [|c r IH]; intros H; [done|]. simpl.
  destruct (Char.is_space c) eqn:Es; [|done].
  destruct H as [_ H]. rewrite (space_not_word c Es) in H. by apply IH.
Qed.

Lemma word_prefix_rstrip l : word_prefix (Py.rstrip l) = word_prefix l.
Proof.
  induction l as [|c r IH]; [done|]. simpl.
  destruct (Py.rstrip r) as [|d r'] eqn:E.
  - destruct (Char.is_space c) eqn:Es.
    + by rewrite (space_not_word c Es).
    + simpl. by rewrite <- IH.
  - simpl. by rewrite <- IH.
Qed.

Lemma nohon_rstrip l : ∀ pw, nohon alts pw l → nohon alts pw (Py.rstrip l).
Proof.
  induction l as [|c r IH]; intros pw H; [done|]. destruct H as [Hc Hr].
  pose proof (word_prefix_rstrip (c :: r)) as Hwp.
  apply IH in Hr. simpl in *.
  destruct (Py.rstrip r) as [|d r'] eqn:E.
  - destruct (Char.is_space c); [done|]. split; [by rewrite Hwp|done].
  - split; [by rewrite Hwp|done].
Qed.

End Deletion.

End NameProps.

(** *** The normal form *)

Lemma map_fixed (g : ascii → ascii) l : Forall (fun c => g c = c) l → map g l = l.
Proof. induction 1 as [|c r Hc _ IH]; [done|]. simpl. by rewrite Hc, IH. Qed.

Lemma Forall_sub_ws_out (P : ascii → Prop) l :
  P " "%char → Forall (fun c => Char.is_space c = false → P c) l →
  ∀ b, Forall P (Py.sub_ws b l).
Proof.
  intros Hsp. induction 1 as [|c r Hc _ IH]; intros b; [done|]. simpl.
  destruct (Char.is_space c) eqn:E; [destruct b|]; try constructor; auto.
Qed.

(** What the result of [normalize_name] looks like. *)
Record normal (t : list ascii) : Prop := {
  normal_chars : Forall NameProps.out_char t;
  normal_strip : Py.strip t = t;
  normal_ws : Py.sub_ws false t = t;
  normal_words : NameProps.nohon honorifics false t
}.

(** A text in normal form is left as it is. *)
Lemma normalize_name_chars_fixed t : normal t → normalize_name_chars t = t.
Proof.
  intros [Hc Hs Hw Hh]. unfold normalize_name_chars.
  assert (Py.lower t = t) as ->.
  { apply map_fixed. eapply Forall_impl; [exact Hc|]. apply NameProps.out_char_lower. }
  rewrite Hs.
  assert (Py.sub_class is_dot_comma t = t) as ->.
  { apply map_fixed. eapply Forall_impl; [exact Hc|].
    intros c Hout. simpl. by rewrite (NameProps.out_char_dot_comma c Hout). }
  rewrite (NameProps.nohon_del_words honorifics NameProps.honorifics_wordy t None Hh).
  assert (Py.sub_class not_alnum_space t = t) as ->.
  { apply map_fixed. eapply Forall_impl; [exact Hc|].
    intros c Hout. simpl. by rewrite (NameProps.out_char_alnum_space c Hout). }
  by rewrite Hw, Hs.
Qed.

(** On ASCII input without underscore the result is in normal form. *)
Lemma normalize_name_chars_normal l :
  Forall (fun c => NameProps.plain c = true) l → normal (normalize_name_chars l).
Proof.
  intros Hl. unfold normalize_name_chars.
  set (x2 := Py.sub_class is_dot_comma (Py.strip (Py.lower l))).
  set (x3 := Py.del_words honorifics None 0 x2).
  set (y := Py.sub_class not_alnum_space x3).
  assert (Forall (fun c => NameProps.settled c = true) x2) as Hx2.
  { apply NameProps.Forall_sub_class; [done|]. apply NameProps.Forall_strip.
    unfold Py.lower. apply Forall_forall. intros c Hc%list_elem_of_In%in_map_iff.
    destruct Hc as (c0 & <- & Hc0%list_elem_of_In).
    apply NameProps.plain_lower_settled. by eapply Forall_forall in Hl. }
  assert (Forall (fun c => NameProps.settled c = true) x3) as Hx3
    by (by apply NameProps.Forall_del_words).
  assert (NameProps.nohon honorifics false x3) as Hh3.
  { apply NameProps.del_words_nohon; [apply NameProps.honorifics_wordy|]. by left. }
  assert (NameProps.nohon honorifics false y) as Hhy.
  { apply NameProps.nohon_map; [|done]. eapply Forall_impl; [exact Hx3|].
    intros c Hc. simpl. destruct (Char.is_word c) eqn:Ew.
    - unfold not_alnum_space. by rewrite (NameProps.settled_word c Hc Ew).
    - by destruct (not_alnum_space c). }
  assert (Forall (fun c => Char.is_space c = false → NameProps.out_char c) y) as Hy.
  { apply Forall_forall. intros c Hc%list_elem_of_In%in_map_iff.
    destruct Hc as (c0 & <- & _). unfold not_alnum_space.
    destruct (Char.is_alnum_lc c0) eqn:Ea; simpl; [by left|].
    destruct (Char.is_space c0) eqn:Es; simpl; [congruence|by right]. }
  split.
  - apply NameProps.Forall_strip, Forall_sub_ws_out; [by right|done].
  - apply NameProps.strip_idem.
  - apply NameProps.single_spaced_fixed.
    apply NameProps.single_spaced_rstrip.
    eapply NameProps.single_spaced_lstrip, NameProps.sub_ws_single_spaced.
  - apply NameProps.nohon_rstrip, NameProps.nohon_lstrip, NameProps.nohon_sub_ws;
      done.
Qed.

(** A string of ASCII characters among which there is no underscore. *)
Definition ascii_without_underscore (s : string) : Prop :=
  Forall (fun c => NameProps.plain c = true) (chars s).

(** C2, as the code has it.  [normalize_name] is idempotent on every string of
    ASCII characters that has no underscore: there the words the pattern of
    the honorifics sees are the words that are left at the end. *)
Theorem normalize_name_idempotent (s : string) :
  ascii_without_underscore s →
  normalize_name (normalize_name s) = normalize_name s.
Proof.
  intros Hs. unfold normalize_name, chars, str.
  rewrite list_ascii_of_string_of_list_ascii. f_equal.
  apply normalize_name_chars_fixed, normalize_name_chars_normal, Hs.
Qed.

Lemma normalize_name_idempotent_witness :
  ascii_without_underscore "Dr. John A. Smith-Jones, MD" ∧
  normalize_name (normalize_name "Dr. John A. Smith-Jones, MD")
  = normalize_name "Dr. John A. Smith-Jones, MD".
Proof.
  assert (ascii_without_underscore "Dr. John A. Smith-Jones, MD") as H
    by (unfold ascii_without_underscore; simpl; repeat constructor).
  split; [exact H|]. apply normalize_name_idempotent, H.
Defined.

(** The claim of the spec fails on ["dr_smith"]: the underscore is a word
    character, so [dr] is not a word for the first call and is one for the
    second. *)
Lemma normalize_name_counterexample :
  normalize_name "dr_smith" = "dr smith" ∧
  normalize_name (normalize_name "dr_smith") = "smith" ∧
  normalize_name (normalize_name "dr_smith") ≠ normalize_name "dr_smith".
Proof. split; [reflexivity|]. split; [reflexivity|]. by vm_compute. Qed.

(** * Further properties of the batch *)

(** ** The clusters partition the records *)

Module Partition.
Import UFProps Clusters Canonical Pipeline.

Lemma build_clusters_nonempty idx : ∀ p clusters p' clusters',
  build_clusters p idx clusters = Some (p', clusters') →
  (∀ r ms, clusters !! r = Some ms → ms ≠ []) →
  ∀ r ms, clusters' !! r = Some ms → ms ≠ [].
Proof.
  induction idx as [|i idx IH]; intros p clusters p' clusters' Hb Hne.
  - simpl in Hb. by simplify_eq.
  - cbn -[UF.find find_fuel] in Hb.
    destruct (UF.find (find_fuel p) p i) as [[p1 r1]|] eqn:Hf; [|done].
    cbn -[UF.find find_fuel] in Hb. eapply IH; [exact Hb|].
    intros r ms. unfold cluster_append.
    destruct (decide (r1 = r)) as [->|Hr].
    + rewrite lookup_insert_eq. intros [= <-]. by destruct (default [] _).
    + rewrite lookup_insert_ne by done. apply Hne.
Qed.

Lemma cluster_definite_entries n E clusters r ms :
  valid n E → cluster_definite n E = Some clusters → clusters !! r = Some ms →
  ms ≠ [] ∧ NoDup ms ∧ ∀ j, j ∈ ms → j < n.
Proof.
  intros Hval Hc Hr.
  destruct (cluster_definite_spec n E Hval)
    as (p & clusters0 & Hc0 & Hwf & Hlen & Hroot & Hm & _).
  rewrite Hc in Hc0. injection Hc0 as <-.
  split; [|split].
  - unfold cluster_definite in Hc.
    destruct (union_all (UF.init n) E) as [p0|]; [|done].
    cbn -[build_clusters] in Hc.
    destruct (build_clusters p0 (seq 0 n) ∅) as [[p1 c1]|] eqn:Hb; [|done].
    cbn in Hc. injection Hc as ->.
    eapply build_clusters_nonempty; [exact Hb| |exact Hr].
    intros r0 ms0. by rewrite lookup_empty.
  - specialize (Hm r). unfold members_of in Hm. rewrite Hr in Hm. simpl in Hm.
    rewrite Hm. apply NoDup_filter, NoDup_seq.
  - specialize (Hm r). unfold members_of in Hm. rewrite Hr in Hm. simpl in Hm.
    rewrite Hm. intros j [_ Hj%elem_of_seq]%list_elem_of_filter. lia.
Qed.

Lemma cluster_definite_unique n E clusters i r ms r' ms' :
  valid n E → cluster_definite n E = Some clusters →
  clusters !! r = Some ms → i ∈ ms → clusters !! r' = Some ms' → i ∈ ms' → r = r'.
Proof.
  intros Hval Hc Hr Hi Hr' Hi'.
  destruct (cluster_definite_spec n E Hval)
    as (p & clusters0 & Hc0 & _ & _ & _ & Hm & _).
  rewrite Hc in Hc0. injection Hc0 as <-.
  pose proof (Hm r) as H1. pose proof (Hm r') as H2.
  unfold members_of in H1, H2. rewrite Hr in H1. rewrite Hr' in H2. simpl in *.
  rewrite H1 in Hi. rewrite H2 in Hi'.
  apply list_elem_of_filter in Hi as [<- _].
  apply list_elem_of_filter in Hi' as [<- _]. done.
Qed.

End Partition.

(** X1.  In a returned output the entries of [clusters] partition the
    records: every record is a member of exactly one entry, and an entry is a
    non-empty list of record indices without repetition. *)
Theorem clusters_partition R df td tp out :
  dedupe R df td tp = Ok out →
  ∃ clusters,
    cluster_definite (length df) (definite_pairs (pairs_df out)) = Some clusters ∧
    (∀ i, i < length df →
       ∃ r ms, clusters !! r = Some ms ∧ i ∈ ms ∧
               ∀ r' ms', clusters !! r' = Some ms' → i ∈ ms' → r' = r) ∧
    (∀ r ms, clusters !! r = Some ms →
       ms ≠ [] ∧ NoDup ms ∧ ∀ j, j ∈ ms → j < length df).
Proof.
  intros Hd.
  destruct (Pipeline.dedupe_inv R df td tp out Hd) as (pair_data & clusters & Hrun).
  pose proof (Pipeline.run_clusters _ _ _ _ _ _ _ Hrun) as Hc.
  pose proof (Pipeline.definite_valid R df td tp out pair_data clusters Hrun) as Hval.
  exists clusters. split; [exact Hc|]. split.
  - intros i Hi.
    destruct (Batch.cluster_of_record R df td tp out i Hd Hi)
      as (clusters' & ms & Hc' & (r & Hr & Him) & _).
    rewrite Hc in Hc'. injection Hc' as <-.
    exists r, ms. split; [exact Hr|]. split; [exact Him|].
    intros r' ms' Hr' Hi'. symmetry.
    by eapply (Partition.cluster_definite_unique _ _ clusters i r ms r' ms').
  - intros r ms Hr. by eapply Partition.cluster_definite_entries.
Qed.

Lemma clusters_partition_witness :
  ∃ out clusters,
    dedupe Difflib.ratio Examples.chain_roster 5 3 = Ok out ∧
    cluster_definite 4 (definite_pairs (pairs_df out)) = Some clusters ∧
    ∀ r ms, clusters !! r = Some ms → NoDup ms.
Proof.
  eassert (dedupe Difflib.ratio Examples.chain_roster 5 3 = Ok _) as Hd
    by (vm_compute; reflexivity).
  destruct (clusters_partition _ _ _ _ _ Hd) as (clusters & Hc & _ & Hent).
  eexists _, clusters. split; [exact Hd|]. split; [exact Hc|].
  intros r ms Hr. by destruct (Hent r ms Hr) as (_ & ? & _).
Defined.

(** ** Records are merged through definite pairs only *)

(** Record [i] is one of the two records of a definite row. *)
Definition in_definite_pair (out : Output) (i : nat) : Prop :=
  ∃ row, (row, "definite") ∈ pairs_df out ∧ (idx_a row = i ∨ idx_b row = i).

Module Merging.
Import UFProps Clusters Canonical Pipeline.

Definition touched (E : list (nat * nat)) (x : nat) : Prop :=
  ∃ a b, (a, b) ∈ E ∧ (x = a ∨ x = b).

Lemma connected_touched n E x y :
  connected n E x y → x = y ∨ (touched E x ∧ touched E y).
Proof.
  induction 1 as [x y [-> _]|a b Hab|x y _ IH|x y z _ IH1 _ IH2].
  - by left.
  - right. split; exists a, b; auto.
  - destruct IH as [->|[? ?]]; auto.
  - destruct IH1 as [->|[? ?]]; [done|]. destruct IH2 as [<-|[? ?]]; auto.
Qed.

Lemma touched_definite out i :
  touched (definite_pairs (pairs_df out)) i ↔ in_definite_pair out i.
Proof.
  unfold touched, in_definite_pair. split.
  - intros (a & b & (row & Hin & <- & <-)%definite_pairs_elem & Hi).
    exists row. split; [done|]. destruct Hi; auto.
  - intros (row & Hin & Hi). exists (idx_a row), (idx_b row). split.
    + apply definite_pairs_elem. by exists row.
    + destruct Hi; auto.
Qed.

Lemma in_multi_inv (clusters : gmap nat (list nat)) c :
  c ∈ List.filter (fun c => (1 <? length c)%nat) (map snd (map_to_list clusters)) →
  ∃ r, clusters !! r = Some c ∧ 1 < length c.
Proof.
  intros [Hin Hlen]%list_elem_of_In%filter_In.
  apply in_map_iff in Hin as ([r c'] & <- & Hin%list_elem_of_In).
  exists r. split; [by apply elem_of_map_to_list|by apply Nat.ltb_lt].
Qed.

(** The members of an entry are linked by chains of definite pairs. *)
Lemma entry_connected R df td tp out clusters r ms a b :
  dedupe R df td tp = Ok out →
  cluster_definite (length df) (definite_pairs (pairs_df out)) = Some clusters →
  clusters !! r = Some ms → a ∈ ms → b ∈ ms →
  connected (length df) (definite_pairs (pairs_df out)) a b.
Proof.
  intros Hd Hc Hr Ha Hb.
  destruct (dedupe_inv R df td tp out Hd) as (pair_data & clusters0 & Hrun).
  pose proof (definite_valid R df td tp out pair_data clusters0 Hrun) as Hval.
  destruct (Partition.cluster_definite_entries _ _ clusters r ms Hval Hc Hr)
    as (_ & _ & Hlt).
  destruct (Batch.cluster_of_record R df td tp out a Hd (Hlt a Ha))
    as (clusters' & ms' & Hc' & (r' & Hr' & Ha') & Hmem & _).
  rewrite Hc in Hc'. injection Hc' as <-.
  assert (r = r') as <-
    by (by eapply (Partition.cluster_definite_unique _ _ clusters a r ms r' ms')).
  rewrite Hr in Hr'. injection Hr' as <-. by apply Hmem.
Qed.

End Merging.

(** X2.  Two records that sit in the same entry of [clusters] are linked by a
    chain of pairs that were classified definite: a pair below the definite
    threshold never merges two records by itself. *)
Theorem same_cluster_connected R df td tp out clusters r ms a b :
  dedupe R df td tp = Ok out →
  cluster_definite (length df) (definite_pairs (pairs_df out)) = Some clusters →
  clusters !! r = Some ms → a ∈ ms → b ∈ ms →
  Clusters.connected (length df) (definite_pairs (pairs_df out)) a b ∧
  (a ≠ b → in_definite_pair out a ∧ in_definite_pair out b).
Proof.
  intros Hd Hc Hr Ha Hb.
  pose proof (Merging.entry_connected R df td tp out clusters r ms a b Hd Hc Hr Ha Hb)
    as Hconn.
  split; [exact Hconn|]. intros Hne.
  destruct (Merging.connected_touched _ _ _ _ Hconn) as [?|[Ht1 Ht2]]; [done|].
  split; by apply Merging.touched_definite.
Qed.

Lemma same_cluster_connected_witness :
  ∃ out, dedupe Difflib.ratio Examples.chain_roster 5 3 = Ok out ∧
         in_definite_pair out 0 ∧ in_definite_pair out 2.
Proof.
  eassert (dedupe Difflib.ratio Examples.chain_roster 5 3 = Ok _) as Hd
    by (vm_compute; reflexivity).
  destruct (Batch.cluster_of_record _ _ _ _ _ 0 Hd)
    as (clusters & ms & Hc & (r & Hr & H0) & Hmem & _); [simpl; lia|].
  assert (2 ∈ ms) as H2.
  { apply Hmem. split; [simpl; lia|].
    eapply Clusters.conn_trans; apply Clusters.conn_edge.
    - apply list_elem_of_here.
    - apply list_elem_of_further, list_elem_of_here. }
  destruct (same_cluster_connected _ _ _ _ _ clusters r ms 0 2 Hd Hc Hr H0 H2)
    as [_ Hp].
  eexists. split; [exact Hd|]. by apply Hp.
Defined.

(** X3.  The clusters reported for review, [multi], hold exactly the records
    that take part in a definite pair. *)
Theorem multi_records R df td tp out i :
  dedupe R df td tp = Ok out →
  (∃ c, c ∈ multi out ∧ i ∈ c) ↔ in_definite_pair out i.
Proof.
  intros Hd.
  destruct (Pipeline.dedupe_inv R df td tp out Hd) as (pair_data & clusters & Hrun).
  pose proof (Pipeline.run_clusters _ _ _ _ _ _ _ Hrun) as Hc.
  pose proof (Pipeline.definite_valid R df td tp out pair_data clusters Hrun) as Hval.
  split.
  - intros (c & Hmulti & Hi). rewrite (Pipeline.run_multi _ _ _ _ _ _ _ Hrun) in Hmulti.
    apply Merging.in_multi_inv in Hmulti as (r & Hr & Hlen).
    destruct (Partition.cluster_definite_entries _ _ clusters r c Hval Hc Hr)
      as (_ & Hnd & _).
    assert (∃ j, j ∈ c ∧ j ≠ i) as (j & Hj & Hne).
    { destruct c as [|x [|y c]]; simpl in Hlen; try lia.
      apply NoDup_cons in Hnd as [Hx _].
      destruct (decide (x = i)) as [->|Hxi].
      - exists y. split; [by right; left|]. intros ->. apply Hx. by left.
      - exists x. split; [by left|done]. }
    pose proof (Merging.entry_connected R df td tp out clusters r c i j Hd Hc Hr Hi Hj)
      as Hconn.
    destruct (Merging.connected_touched _ _ _ _ Hconn) as [?|[Ht _]]; [congruence|].
    by apply Merging.touched_definite.
  - intros (row & Hin & Hi).
    destruct (definite_row_merged R df td tp out row (idx_a row) (idx_b row) Hd Hin)
      as (clusters' & ms & cid & _ & (r & _ & Ha) & Hb & Hm & _); [done|].
    exists ms. split; [exact Hm|]. destruct Hi as [<-|<-]; done.
Qed.

(** X4.  A record that takes part in no definite pair is alone in its
    cluster and keeps its own provider id as [dedup_cluster_id]. *)
Theorem unpaired_record_alone R df td tp out i :
  dedupe R df td tp = Ok out → i < length df →
  ¬ in_definite_pair out i →
  cluster_id out i = Some (row_pid (roster_of df) i) ∧
  ∃ clusters r,
    cluster_definite (length df) (definite_pairs (pairs_df out)) = Some clusters ∧
    clusters !! r = Some [i].
Proof.
  intros Hd Hi Hnot.
  destruct (Batch.cluster_of_record R df td tp out i Hd Hi)
    as (clusters & ms & Hc & (r & Hr & Him) & Hmem & Hid & _).
  destruct (Pipeline.dedupe_inv R df td tp out Hd) as (pair_data & clusters0 & Hrun).
  pose proof (Pipeline.definite_valid R df td tp out pair_data clusters0 Hrun) as Hval.
  destruct (Partition.cluster_definite_entries _ _ clusters r ms Hval Hc Hr)
    as (_ & Hnd & _).
  assert (ms = [i]) as ->.
  { assert (∀ j, j ∈ ms → j = i) as Hall.
    { intros j [_ Hconn]%Hmem.
      destruct (Merging.connected_touched _ _ _ _ Hconn) as [?|[Ht _]]; [done|].
      destruct Hnot. by apply Merging.touched_definite. }
    destruct ms as [|x [|y ms]].
    - by apply elem_of_nil in Him.
    - f_equal. apply Hall. by left.
    - apply NoDup_cons in Hnd as [Hx _]. destruct Hx.
      rewrite (Hall x) by (by left). rewrite (Hall y) by (by right; left). by left. }
  split; [|by exists clusters, r].
  rewrite (Hid i) by (by left). done.
Qed.

Lemma chain_record3_unpaired out :
  dedupe Difflib.ratio Examples.chain_roster 5 3 = Ok out → ¬ in_definite_pair out 3.
Proof.
  intros Hd (row & Hin & Hi). vm_compute in Hd. injection Hd as <-.
  apply elem_of_cons in Hin as [[= ->]|Hin]; [simpl in Hi; lia|].
  apply elem_of_cons in Hin as [[= ->]|Hin]; [simpl in Hi; lia|].
  by apply elem_of_nil in Hin.
Defined.

Lemma multi_records_witness :
  ∃ out, dedupe Difflib.ratio Examples.chain_roster 5 3 = Ok out ∧
         ¬ (∃ c, c ∈ multi out ∧ 3 ∈ c).
Proof.
  eassert (dedupe Difflib.ratio Examples.chain_roster 5 3 = Ok _) as Hd
    by (vm_compute; reflexivity).
  eexists. split; [exact Hd|].
  intros Hc. apply (chain_record3_unpaired _ Hd).
  by apply (multi_records _ _ _ _ _ 3 Hd).
Defined.

Lemma unpaired_record_alone_witness :
  ∃ out, dedupe Difflib.ratio Examples.chain_roster 5 3 = Ok out ∧
         cluster_id out 3 = Some "P4".
Proof.
  eassert (dedupe Difflib.ratio Examples.chain_roster 5 3 = Ok _) as Hd
    by (vm_compute; reflexivity).
  eexists. split; [exact Hd|].
  destruct (unpaired_record_alone _ _ _ _ _ 3 Hd) as [Hid _];
    [simpl; lia|exact (chain_record3_unpaired _ Hd)|exact Hid].
Defined.

(** ** The table of scored pairs *)

Module PairsTable.
Import Pipeline.

Global Instance score_ge_total : Total score_ge.
Proof.
  intros x y. unfold score_ge. rewrite !Qle_bool_iff.
  destruct (Qlt_le_dec (score x) (score y)) as [H|H]; [right|left]; lra.
Qed.

Global Instance score_ge_trans : Transitive score_ge.
Proof.
  intros x y z. unfold score_ge. rewrite !Qle_bool_iff. lra.
Qed.

Lemma scored_pairs_idx R roster cands : ∀ rows,
  Forall2 (scored R roster) cands rows →
  map (fun row => (idx_a row, idx_b row)) rows = cands.
Proof.
  induction 1 as [|[a b] row cands rows Hs _ IH]; [done|]. simpl.
  apply scored_idx in Hs as [-> ->]. by rewrite IH.
Qed.

End PairsTable.

(** X5.  The returned pairs table is sorted by score, highest first; it has
    one row for every candidate pair and no other row, and the class of a
    row is the class of its score. *)
Theorem pairs_table_sorted R df td tp out :
  dedupe R df td tp = Ok out →
  StronglySorted (fun x y => (score y.1 <= score x.1)%Q) (pairs_df out) ∧
  map (fun row => (idx_a row.1, idx_b row.1)) (pairs_df out)
    ≡ₚ elements (candidates_of df) ∧
  Forall (fun row => row.2 = classify td tp (score row.1)) (pairs_df out).
Proof.
  intros Hd.
  destruct (Pipeline.dedupe_inv R df td tp out Hd) as (pair_data & clusters & Hrun).
  rewrite (Pipeline.run_pairs _ _ _ _ _ _ _ Hrun).
  pose proof (Pipeline.run_scored _ _ _ _ _ _ _ Hrun) as HF.
  split; [|split].
  - change (map ?f ?l) with (f <$> l).
    apply (StronglySorted_fmap _ score_ge).
    + intros x y Hxy. simpl. by apply Qle_bool_iff.
    + apply StronglySorted_merge_sort; apply _.
  - rewrite map_map. simpl.
    rewrite <- (PairsTable.scored_pairs_idx R _ _ _ HF).
    change (map ?f ?l) with (f <$> l). apply fmap_Permutation, merge_sort_Permutation.
  - apply Forall_forall. intros [row cls] Hin%list_elem_of_In%in_map_iff.
    by destruct Hin as (r & [= <- <-] & _).
Qed.

Lemma pairs_table_sorted_witness :
  ∃ out, dedupe Difflib.ratio Examples.chain_roster 5 3 = Ok out ∧
         map (fun row => (idx_a row.1, idx_b row.1)) (pairs_df out)
           ≡ₚ elements (candidates_of Examples.chain_roster).
Proof.
  eassert (dedupe Difflib.ratio Examples.chain_roster 5 3 = Ok _) as Hd
    by (vm_compute; reflexivity).
  eexists. split; [exact Hd|].
  by destruct (pairs_table_sorted _ _ _ _ _ Hd) as (_ & ? & _).
Defined.

(** ** When [dedupe] returns *)

Lemma no_candidates_raise R df td tp :
  candidates_of df = ∅ → dedupe R df td tp = Raise "KeyError: 'score'".
Proof.
  intros H. rewrite Pipeline.dedupe_unfold, H, elements_empty. reflexivity.
Qed.



(** X7.  A roster of at most one record has no candidate pair, so [dedupe]
    raises [KeyError] on it instead of returning an empty result; the empty
    roster is one such input. *)
Theorem dedupe_single_record R df td tp :
  length df ≤ 1 → dedupe R df td tp = Raise "KeyError: 'score'".
Proof.
  intros Hlen. apply no_candidates_raise. apply set_eq. intros [a b].
  split; [|by intros ?%not_elem_of_empty].
  intros (Hab & ra & rb & Ha%lookup_lt_Some & Hb%lookup_lt_Some)%Pipeline.candidates_valid.
  unfold roster_of in *. rewrite length_map in Ha, Hb. lia.
Qed.

Lemma dedupe_single_record_witness :
  dedupe Difflib.ratio [] 5 3 = Raise "KeyError: 'score'" ∧
  dedupe Difflib.ratio [Examples.s1_a] 5 3 = Raise "KeyError: 'score'".
Proof.
  split; apply dedupe_single_record; simpl; lia.
Defined.

(** ** Blocking is complete *)

(** The five ways in which two rows fall into one block. *)
Definition blocked_together (ra rb : Row) : Prop :=
  (npi_norm ra ≠ "" ∧ npi_norm ra ≠ "nan" ∧ npi_norm ra = npi_norm rb)
  ∨ (license_norm ra ≠ "" ∧ license_norm ra ≠ "nan" ∧ license_state_norm ra ≠ ""
     ∧ license_norm ra = license_norm rb
     ∧ license_state_norm ra = license_state_norm rb)
  ∨ (last_pref ra ≠ "" ∧ last_pref ra = last_pref rb)
  ∨ (phone_last4_col ra ≠ "" ∧ phone_last4_col ra = phone_last4_col rb)
  ∨ (tax_norm ra ≠ "" ∧ tax_norm ra = tax_norm rb).

Lemma blocked_together_key ra rb :
  blocked_together ra rb → ∃ k, Blocking.key_of ra k ∧ Blocking.key_of rb k.
Proof.
  intros [(H1 & H2 & E)|[(H1 & H2 & H3 & E1 & E2)|[[H E]|[[H E]|[H E]]]]].
  - exists ("NPI::" +:+ npi_norm ra). split; [by constructor|].
    rewrite E. constructor; by rewrite <- E.
  - exists ("LIC::" +:+ license_state_norm ra +:+ "::" +:+ license_norm ra).
    split; [by constructor|]. rewrite E1, E2. constructor; by rewrite <- ?E1, <- ?E2.
  - exists ("LNP::" +:+ last_pref ra). split; [by constructor|].
    rewrite E. constructor; by rewrite <- E.
  - exists ("PH4::" +:+ phone_last4_col ra). split; [by constructor|].
    rewrite E. constructor; by rewrite <- E.
  - exists ("TAX::" +:+ tax_norm ra). split; [by constructor|].
    rewrite E. constructor; by rewrite <- E.
Qed.

(** X8.  Any one shared key is enough: two records [a < b] whose rows agree
    on a usable NPI, on a usable licence (number and state), on the last-name
    prefix, on the phone suffix or on the taxonomy code form a candidate
    pair. *)
Theorem shared_key_candidate df a b ra rb :
  a < b → roster_of df !! a = Some ra → roster_of df !! b = Some rb →
  blocked_together ra rb → (a, b) ∈ candidates_of df.
Proof.
  intros Hab Ha Hb (k & Hka & Hkb)%blocked_together_key.
  apply Blocking.candidate_pairs_elem. exists k. split; [|split; [|done]].
  - apply Blocking.blocks_members. exists ra. split; [done|].
    by apply Blocking.block_keys_spec.
  - apply Blocking.blocks_members. exists rb. split; [done|].
    by apply Blocking.block_keys_spec.
Qed.

Lemma shared_key_candidate_witness :
  (0, 1) ∈ candidates_of [Examples.nan_a; Examples.nan_b].
Proof.
  eapply shared_key_candidate; [lia|reflexivity|reflexivity|].
  right; right; right; right. split; [done|reflexivity].
Defined.

(** ** The range of a score *)

Lemma ratio_of_sizes_le_1 a b : a ≤ b → (ratio_of_sizes a b <= 1)%Q.
Proof.
  intros H. unfold ratio_of_sizes, Qle. simpl.
  destruct b as [|b]; [replace a with 0 by lia; simpl; lia|].
  rewrite Z.mul_1_r, Z.mul_1_l. lia.
Qed.

Lemma token_overlap_le_1 a b : (token_overlap a b <= 1)%Q.
Proof.
  unfold token_overlap. repeat case_decide; try (unfold Qle; simpl; lia).
  apply ratio_of_sizes_le_1, subseteq_size. set_solver.
Qed.

Lemma npi_eq_no_conflict ra rb : npi_eq ra rb = true → npi_conflict ra rb = false.
Proof.
  intros [_ E]%both_eq_true. unfold npi_conflict.
  rewrite E, String.eqb_refl. simpl. by rewrite andb_false_r.
Qed.

(** X9.  The NPI-equality bonus and the NPI-conflict penalty exclude each
    other.  When the sequence ratio lies in [0, 1] a score is at least -4.0,
    it is negative only under the NPI-conflict penalty, and it stays below
    18: the weights add up to 6.0 + 5.0 + 3.0 + 1.0 + 1.5 + 0.8 + 0.6 = 17.9,
    and the bound 18 leaves room for the rounding of the float additions of
    the program, which this development does not model. *)
Theorem score_range R a b ra rb q row :
  seq_ratio R (name_norm ra) (name_norm rb) = Ok q →
  (0 <= q)%Q → (q <= 1)%Q →
  score_pair R a b ra rb = Ok row →
  (-4 <= score row)%Q ∧ (score row < 18)%Q ∧
  (npi_conflict ra rb = false → (0 <= score row)%Q) ∧
  ¬ ("npi_eq" ∈ reasons row ∧ "npi_conflict" ∈ reasons row).
Proof.
  intros Hq Hq0 Hq1 Hrow.
  rewrite (score_pair_ok R a b ra rb q Hq) in Hrow. injection Hrow as <-. simpl.
  pose proof (token_overlap_nonneg (name_norm ra) (name_norm rb)).
  pose proof (token_overlap_le_1 (name_norm ra) (name_norm rb)).
  pose proof (token_overlap_nonneg (addr_norm ra) (addr_norm rb)).
  pose proof (token_overlap_le_1 (addr_norm ra) (addr_norm rb)).
  pose proof (npi_eq_no_conflict ra rb) as Hex.
  unfold pair_reasons, accumulate.
  destruct (npi_eq ra rb), (lic_eq ra rb), (ph4_eq ra rb), (tax_eq ra rb),
    (npi_conflict ra rb); try (by discriminate Hex);
    (split; [lra|split; [lra|split; [intros Hc; first [discriminate Hc|lra]|]]]);
    intros [Hin1 Hin2]; simpl in Hin1, Hin2;
    repeat match goal with
           | H : _ ∈ _ :: _ |- _ => apply elem_of_cons in H as [H|H]; [discriminate H|]
           | H : _ ∈ [] |- _ => by apply elem_of_nil in H
           end.
Qed.

Lemma score_range_witness :
  ∃ row, score_pair Difflib.ratio 0 1
           (normalize_row Examples.s3_a) (normalize_row Examples.s3_b) = Ok row ∧
         (-4 <= score row)%Q ∧ (score row < 18)%Q.
Proof.
  eexists. split; [reflexivity|].
  edestruct (score_range Difflib.ratio 0 1 (normalize_row Examples.s3_a)
               (normalize_row Examples.s3_b) 1) as (H1 & H2 & _);
    [reflexivity|unfold Qle; simpl; lia|unfold Qle; simpl; lia|reflexivity|].
  split; [exact H1|exact H2].
Defined.

(** ** Token overlap *)

(** X10.  The token overlap does not depend on the order of its arguments,
    lies between 0 and 1, and equals 1 exactly when the two strings have the
    same set of tokens. *)
Theorem token_overlap_properties (a b : string) :
  token_overlap a b = token_overlap b a ∧
  (0 <= token_overlap a b)%Q ∧ (token_overlap a b <= 1)%Q ∧
  ((token_overlap a b == 1)%Q ↔
   list_to_set (C := gset string) (name_tokens a) = list_to_set (name_tokens b)).
Proof.
  split; [|split; [apply token_overlap_nonneg|split; [apply token_overlap_le_1|]]].
  - unfold token_overlap.
    set (sa := list_to_set (name_tokens a) : gset string).
    set (sb := list_to_set (name_tokens b) : gset string).
    clearbody sa sb.
    assert (sb ∩ sa = sa ∩ sb) as -> by set_solver.
    assert (sb ∪ sa = sa ∪ sb) as -> by set_solver.
    destruct (decide (sa = ∅ ∧ sb = ∅)) as [[? ?]|Hn],
      (decide (sb = ∅ ∧ sa = ∅)) as [[? ?]|Hn']; try done.
    + destruct Hn'. done.
    + destruct Hn. done.
  - split; [|apply token_overlap_same_set].
    unfold token_overlap.
    set (sa := list_to_set (name_tokens a) : gset string).
    set (sb := list_to_set (name_tokens b) : gset string).
    clearbody sa sb.
    destruct (decide (sa = ∅ ∧ sb = ∅)) as [[-> ->]|Hn]; [done|].
    destruct (decide (sa ∪ sb = ∅)) as [Hu|Hu]; [intros H; by vm_compute in H|].
    unfold ratio_of_sizes, Qeq. simpl. rewrite Z.mul_1_r, Z.mul_1_l. intros Hsz.
    assert (size (sa ∪ sb) ≠ 0) as Hpos.
    { intros Hz%size_empty_iff. apply Hu. by apply leibniz_equiv. }
    assert (size (sa ∪ sb) ≤ size (sa ∩ sb)) as Hle by lia.
    assert (sa ∩ sb = sa ∪ sb) as Heq
      by (apply set_subseteq_size_eq; [set_solver|done]).
    set_solver.
Qed.

(** ** Phone numbers *)

Lemma chars_str l : chars (str l) = l.
Proof. apply list_ascii_of_string_of_list_ascii. Qed.

Lemma str_chars s : str (chars s) = s.
Proof. apply string_of_list_ascii_of_string. Qed.

Lemma filter_filter_same {A} (f : A → bool) l :
  List.filter f (List.filter f l) = List.filter f l.
Proof.
  induction l as [|x l IH]; [done|]. simpl.
  destruct (f x) eqn:E; [|done]. simpl. by rewrite E, IH.
Qed.

Lemma filter_all_true {A} (f : A → bool) l :
  Forall (fun x => f x = true) l → List.filter f l = l.
Proof.
  induction 1 as [|x l Hx _ IH]; [done|]. simpl. by rewrite Hx, IH.
Qed.

Lemma chars_append s t : chars (s +:+ t) = chars s ++ chars t.
Proof. induction s as [|c s IH]; [done|]. simpl. by rewrite <- IH. Qed.

Lemma str_app l k : str (l ++ k) = str l +:+ str k.
Proof. induction l as [|c l IH]; [done|]. simpl. by rewrite IH. Qed.

Lemma normalize_phone_chars s :
  chars (normalize_phone s) = List.filter Char.is_digit (chars s).
Proof.
  unfold normalize_phone, Py.del_class. rewrite chars_str.
  induction (chars s) as [|c l IH]; [done|]. simpl.
  rewrite negb_involutive. destruct (Char.is_digit c); [by rewrite IH|done].
Qed.

(** X11.  [normalize_phone] keeps exactly the decimal digits of its input,
    in their order: the result is the input with every other character
    left out, it is the image of a concatenation piece by piece, a string of
    digits is returned as it is, and normalizing again changes nothing.
    [phone_last4] of the result is empty when there are fewer than four
    digits, and otherwise it is the suffix made of the last four digits. *)
Theorem phone_normalization (s : string) :
  chars (normalize_phone s) = List.filter Char.is_digit (chars s) ∧
  (∀ t, normalize_phone (s +:+ t) = normalize_phone s +:+ normalize_phone t) ∧
  (Forall (fun c => Char.is_digit c = true) (chars s) → normalize_phone s = s) ∧
  Forall (fun c => Char.is_digit c = true) (chars (normalize_phone s)) ∧
  normalize_phone (normalize_phone s) = normalize_phone s ∧
  (length (List.filter Char.is_digit (chars s)) < 4 →
     phone_last4 (normalize_phone s) = "") ∧
  (4 ≤ length (List.filter Char.is_digit (chars s)) →
     length (chars (phone_last4 (normalize_phone s))) = 4 ∧
     ∃ front, List.filter Char.is_digit (chars s)
              = front ++ chars (phone_last4 (normalize_phone s))).
Proof.
  assert (Hstr : ∀ u, normalize_phone u = str (List.filter Char.is_digit (chars u))).
  { intros u. by rewrite <- normalize_phone_chars, str_chars. }
  set (d := List.filter Char.is_digit (chars s)).
  assert (Hd : Forall (fun c => Char.is_digit c = true) d).
  { apply Forall_forall. intros c Hc%list_elem_of_In%filter_In. apply Hc. }
  split; [apply normalize_phone_chars|]. split; [|split; [|split; [|split; [|split]]]].
  - intros t. rewrite !Hstr, chars_append, List.filter_app. apply str_app.
  - intros Hs. rewrite Hstr. rewrite filter_all_true by done. apply str_chars.
  - by rewrite normalize_phone_chars.
  - rewrite (Hstr (normalize_phone s)), normalize_phone_chars. fold d.
    rewrite filter_all_true by done. by rewrite Hstr.
  - intros Hlen. unfold phone_last4. rewrite normalize_phone_chars. fold d.
    destruct (4 <=? length d)%nat eqn:E; [apply Nat.leb_le in E; lia|done].
  - intros Hlen. unfold phone_last4. rewrite normalize_phone_chars. fold d.
    apply Nat.leb_le in Hlen as E. rewrite E, chars_str. split.
    + rewrite length_drop. lia.
    + exists (take (length d - 4) d). by rewrite take_drop.
Qed.

(** ** Tokens and the last-name prefix *)

Module Tokens.

Definition blank (c : ascii) : Prop := Char.is_space c = true.
Definition inked (c : ascii) : Prop := Char.is_space c = false.

Lemma split_ws_inked l : ∀ b, Forall (Forall inked) (Py.split_ws b l).
Proof.
  induction l as [|c r IH]; intros b; simpl; [by repeat constructor|].
  destruct (Char.is_space c) eqn:E.
  - destruct b; [apply IH|]. constructor; [done|apply IH].
  - specialize (IH false). destruct (Py.split_ws false r) as [|t ts].
    + by repeat constructor.
    + apply Forall_cons in IH as [Ht Hts]. constructor; [by constructor|done].
Qed.

Lemma split_ws_concat l : ∀ b,
  concat (Py.split_ws b l) = List.filter (fun c => negb (Char.is_space c)) l.
Proof.
  induction l as [|c r IH]; intros b; simpl; [done|].
  destruct (Char.is_space c) eqn:E; simpl.
  - destruct b; simpl; apply IH.
  - specialize (IH false). destruct (Py.split_ws false r) as [|t ts]; simpl in *.
    + by rewrite <- IH.
    + by rewrite <- IH.
Qed.

Lemma concat_filter_nonempty (ls : list (list ascii)) :
  concat (List.filter (fun t => negb (Nat.eqb (length t) 0)) ls) = concat ls.
Proof.
  induction ls as [|t ls IH]; [done|]. simpl.
  destruct t as [|c t]; simpl; [done|]. by rewrite IH.
Qed.

Lemma name_tokens_chars_spec l :
  Forall (fun t => t ≠ [] ∧ Forall inked t) (name_tokens_chars l) ∧
  concat (name_tokens_chars l) = List.filter (fun c => negb (Char.is_space c)) l.
Proof.
  unfold name_tokens_chars. split.
  - apply Forall_forall. intros t [Hin Hne]%list_elem_of_In%filter_In. split.
    + by destruct t.
    + pose proof (split_ws_inked l false) as H.
      eapply Forall_forall in H; [done|]. by apply list_elem_of_In.
  - by rewrite concat_filter_nonempty, split_ws_concat.
Qed.

Lemma name_tokens_chars_nil l :
  name_tokens_chars l = [] ↔ Forall blank l.
Proof.
  destruct (name_tokens_chars_spec l) as [Hne Hcat]. split.
  - intros E. rewrite E in Hcat. simpl in Hcat.
    apply Forall_forall. intros c Hc. unfold blank.
    destruct (Char.is_space c) eqn:Ec; [done|].
    assert (In c []) as []. rewrite Hcat. apply filter_In.
    split; [by apply list_elem_of_In|by rewrite Ec].
  - intros Hb. destruct (name_tokens_chars l) as [|t ts]; [done|].
    apply Forall_cons in Hne as [[Ht _] _]. destruct t as [|c t]; [done|].
    assert (In c (List.filter (fun c => negb (Char.is_space c)) l)) as Hin
      by (rewrite <- Hcat; by left).
    apply filter_In in Hin as [Hin Hc]. apply list_elem_of_In in Hin.
    eapply Forall_forall in Hb; [|done]. unfold blank in Hb. by rewrite Hb in Hc.
Qed.

End Tokens.

(** X12.  The tokens of a string are non-empty, contain no white space, and
    put one after the other they give the string without its white space; a
    string has no token exactly when all its characters are white space. *)
Theorem name_tokens_spec (s : string) :
  Forall (fun t => t ≠ "" ∧ Forall (fun c => Char.is_space c = false) (chars t))
    (name_tokens s) ∧
  concat (map chars (name_tokens s))
  = List.filter (fun c => negb (Char.is_space c)) (chars s) ∧
  (name_tokens s = [] ↔ Forall (fun c => Char.is_space c = true) (chars s)).
Proof.
  unfold name_tokens.
  destruct (Tokens.name_tokens_chars_spec (chars s)) as [Hne Hcat].
  split; [|split].
  - apply Forall_forall. intros t Hin%list_elem_of_In%in_map_iff.
    destruct Hin as (l & <- & Hl%list_elem_of_In).
    eapply Forall_forall in Hne as [Hl1 Hl2]; [|done]. rewrite chars_str.
    split; [|done]. by destruct l.
  - rewrite map_map. rewrite <- Hcat. f_equal.
    rewrite <- (map_id (name_tokens_chars (chars s))) at 2.
    apply map_ext. intros l. apply chars_str.
  - rewrite <- Tokens.name_tokens_chars_nil. split.
    + by intros ?%map_eq_nil.
    + by intros ->.
Qed.

(** X13.  [last_name_prefix(s, n)] has at most [n] characters and no white
    space, it is a prefix of the last token of [s], and it is empty when [s]
    has no token; for [n > 0] it is empty only then. *)
Theorem last_name_prefix_spec (s : string) (n : nat) :
  length (chars (last_name_prefix s n)) ≤ n ∧
  Forall (fun c => Char.is_space c = false) (chars (last_name_prefix s n)) ∧
  (name_tokens s = [] → last_name_prefix s n = "") ∧
  (∀ t, last (name_tokens s) = Some t →
        ∃ rest, chars t = chars (last_name_prefix s n) ++ rest) ∧
  (0 < n → last_name_prefix s n = "" → name_tokens s = []).
Proof.
  unfold last_name_prefix, name_tokens.
  destruct (Tokens.name_tokens_chars_spec (chars s)) as [Hne _].
  destruct (last (name_tokens_chars (chars s))) as [t|] eqn:E.
  - assert (t ≠ [] ∧ Forall Tokens.inked t) as [Ht1 Ht2].
    { eapply Forall_forall in Hne; [done|].
      apply last_Some in E as [l' ->]. apply elem_of_app. right. by left. }
    rewrite chars_str. split_and!.
    + rewrite length_take. lia.
    + by apply Forall_take.
    + intros H%map_eq_nil. by rewrite H in E.
    + intros t' Ht'. change (map str ?l) with (str <$> l) in Ht'.
      rewrite fmap_last, E in Ht'. injection Ht' as <-. rewrite chars_str.
      exists (drop n t). by rewrite take_drop.
    + intros Hn H. exfalso. assert (chars (str (take n t)) = chars "") as H'
        by (by rewrite H).
      rewrite chars_str in H'. destruct t, n; simpl in *; done || lia.
  - apply last_None in E. rewrite E. simpl. split_and!; try done; lia.
Qed.

(** ** The union-find class *)

Lemma find_compressed fuel : ∀ p x p' r,
  UF.find fuel p x = Some (p', r) → p' !! x = Some r ∧ length p' = length p.
Proof.
  induction fuel as [|fuel IH]; intros p x p' r H; [done|]. simpl in H.
  destruct (p !! x) as [px|] eqn:Hx; [|done]. simpl in H.
  destruct (decide (px = x)) as [->|Hne]; [by simplify_eq|].
  destruct (UF.find fuel p px) as [[p1 r1]|] eqn:Hf; [|done]. simpl in H.
  injection H as <- <-. apply IH in Hf as [_ Hlen].
  rewrite length_insert. split; [|done].
  apply list_lookup_insert_eq. rewrite Hlen. by eapply lookup_lt_Some.
Qed.

(** X14.  A fresh structure [UF(n)] is a forest in which every element is
    its own root: two elements share a root only when they are equal, and
    [find] returns an element below [n] unchanged and leaves the array as it
    is. *)
Theorem uf_init_spec (n : nat) :
  UFProps.wf (UF.init n) ∧
  (∀ x y, UFProps.same (UF.init n) x y ↔ x = y ∧ x < n) ∧
  (∀ x, x < n → UF.find (find_fuel (UF.init n)) (UF.init n) x = Some (UF.init n, x)).
Proof.
  split; [apply UFProps.wf_init|]. split.
  - intros x y. split.
    + intros (r & [-> Hx]%UFProps.rep_init & [-> _]%UFProps.rep_init). done.
    + intros [-> Hy]. exists y. split; by apply UFProps.rep_init.
  - intros x Hx. unfold find_fuel. simpl. unfold UF.init.
    rewrite lookup_seq_lt by done. simpl. by rewrite decide_True.
Qed.

(** X15.  On a forest, [find] of an element in range returns a root, stores
    it as the parent of the element (path compression), keeps the length of
    the array and does not change which elements share a root; [find]
    applied again returns the same root.  An element out of range has no
    parent to read: [find] fails. *)
Theorem uf_find_spec (p : list nat) (x : nat) :
  UFProps.wf p →
  (x < length p →
   ∃ p' r,
     UF.find (find_fuel p) p x = Some (p', r) ∧
     p' !! r = Some r ∧ p' !! x = Some r ∧ length p' = length p ∧
     UFProps.wf p' ∧
     (∀ y z, UFProps.same p' y z ↔ UFProps.same p y z) ∧
     ∃ p'', UF.find (find_fuel p') p' x = Some (p'', r)) ∧
  (length p ≤ x → UF.find (find_fuel p) p x = None).
Proof.
  intros Hwf. split.
  - intros Hx.
    destruct (UFProps.find_spec p x Hwf Hx) as (p' & r & Hf & Hr & Hp).
    pose proof (UFProps.preserves_wf _ _ Hwf Hp) as Hwf'.
    destruct (find_compressed _ _ _ _ _ Hf) as [Hpx Hlen].
    exists p', r. split; [exact Hf|]. split_and!; try done.
    + eapply UFProps.rep_is_root. destruct Hp as [_ Hp]. by apply Hp.
    + intros y z. by apply UFProps.preserves_same.
    + destruct (UFProps.find_spec p' x Hwf') as (p'' & r' & Hf' & Hr' & _); [lia|].
      exists p''. rewrite Hf'. repeat f_equal.
      eapply UFProps.rep_det; [exact Hr'|]. destruct Hp as [_ Hp]. by apply Hp.
  - intros Hx. unfold find_fuel. simpl. by rewrite lookup_ge_None_2.
Qed.

Lemma uf_find_spec_witness :
  ∃ p' r, UF.find (find_fuel [0; 0; 1]) [0; 0; 1] 2 = Some (p', r) ∧ p' !! 2 = Some r.
Proof.
  assert (UFProps.wf [0; 0; 1]) as Hwf.
  { intros x Hx. exists 0.
    destruct x as [|[|[|x]]]; simpl in Hx; try lia.
    - by apply UFProps.rep_root.
    - eapply UFProps.rep_step; [reflexivity|]. by apply UFProps.rep_root.
    - eapply UFProps.rep_step; [reflexivity|].
      eapply UFProps.rep_step; [reflexivity|]. by apply UFProps.rep_root. }
  destruct (uf_find_spec [0; 0; 1] 2 Hwf) as [H _].
  destruct H as (p' & r & Hf & _ & Hx & _); [simpl; lia|].
  by exists p', r.
Defined.

(** X16.  On a forest, [union(a, b)] of two elements in range gives a forest
    of the same length in which [a] and [b] share a root; two elements share
    a root afterwards exactly when they did before or when one was with [a]
    and the other with [b].  When [a] and [b] already share a root, no class
    changes. *)
Theorem uf_union_spec (p : list nat) (a b : nat) :
  UFProps.wf p → a < length p → b < length p →
  ∃ p',
    UF.union (find_fuel p) p a b = Some p' ∧
    length p' = length p ∧ UFProps.wf p' ∧ UFProps.same p' a b ∧
    (∀ x y, UFProps.same p' x y ↔
            UFProps.same p x y
            ∨ (UFProps.same p x a ∧ UFProps.same p y b)
            ∨ (UFProps.same p x b ∧ UFProps.same p y a)) ∧
    (UFProps.same p a b → ∀ x y, UFProps.same p' x y ↔ UFProps.same p x y).
Proof.
  intros Hwf Ha Hb.
  destruct (Clusters.union_same p a b Hwf Ha Hb) as (p' & Hu & Hlen & Hwf' & Hsame).
  exists p'. split; [exact Hu|]. split; [exact Hlen|]. split; [exact Hwf'|].
  split; [|split; [exact Hsame|]].
  - apply Hsame. right; left. split; by apply Clusters.same_refl.
  - intros Hab x y. rewrite Hsame. split; [|by left].
    intros [?|[[Hx Hy]|[Hx Hy]]]; [done|..].
    + eapply Clusters.same_trans; [exact Hx|].
      eapply Clusters.same_trans; [exact Hab|]. by apply Clusters.same_sym.
    + eapply Clusters.same_trans; [exact Hx|].
      eapply Clusters.same_trans; [apply Clusters.same_sym, Hab|].
      by apply Clusters.same_sym.
Qed.

Lemma uf_union_spec_witness :
  ∃ p', UF.union (find_fuel (UF.init 3)) (UF.init 3) 2 0 = Some p' ∧
        UFProps.same p' 2 0.
Proof.
  destruct (uf_union_spec (UF.init 3) 2 0) as (p' & Hu & _ & _ & Hs & _);
    [apply UFProps.wf_init|simpl; lia|simpl; lia|].
  by exists p'.
Defined.

(** ** The two thresholds *)

Module Thresholds.
Import Pipeline.

Lemma is_definite_classify td tp (r : PairRow) :
  is_definite (r, classify td tp (score r)) = Qle_bool td (score r).
Proof.
  unfold is_definite, classify. simpl.
  destruct (Qle_bool td (score r)); [done|]. by destruct (Qle_bool tp (score r)).
Qed.

Lemma definite_pairs_classify td tp (l : list PairRow) :
  definite_pairs (map (fun r => (r, classify td tp (score r))) l)
  = map (fun r => (idx_a r, idx_b r)) (List.filter (fun r => Qle_bool td (score r)) l).
Proof.
  unfold definite_pairs. induction l as [|r l IH]; [done|]. simpl.
  fold (is_definite (r, classify td tp (score r))). rewrite is_definite_classify.
  destruct (Qle_bool td (score r)); simpl; by rewrite IH.
Qed.

Lemma dedupe_pairs R df td tp out :
  dedupe R df td tp = Ok out →
  ∃ pair_data clusters,
    score_pairs R (roster_of df) (elements (candidates_of df)) = Ok pair_data ∧
    pair_data ≠ [] ∧
    cluster_definite (length df) (definite_pairs (classified td tp pair_data))
    = Some clusters ∧
    out = output_of df (classified td tp pair_data) clusters.
Proof.
  rewrite dedupe_unfold.
  destruct (score_pairs R (roster_of df) (elements (candidates_of df)))
    as [pair_data|e]; [|intros; discriminate].
  destruct pair_data as [|row0 rows0] eqn:Ep; [intros; discriminate|].
  rewrite <- Ep in *.
  destruct (cluster_definite _ _) as [clusters|] eqn:Ec; [|intros; discriminate].
  intros [= <-]. exists pair_data, clusters. split_and!; try done.
  by rewrite Ep.
Qed.

Lemma dedupe_from_pairs R df td tp pair_data clusters :
  score_pairs R (roster_of df) (elements (candidates_of df)) = Ok pair_data →
  pair_data ≠ [] →
  cluster_definite (length df) (definite_pairs (classified td tp pair_data))
  = Some clusters →
  dedupe R df td tp = Ok (output_of df (classified td tp pair_data) clusters).
Proof.
  intros Hs Hne Hc. rewrite dedupe_unfold, Hs.
  destruct pair_data as [|row0 rows0] eqn:Ep; [done|]. rewrite <- Ep in *.
  by rewrite Hc.
Qed.

Lemma classified_rows td tp pair_data :
  map fst (classified td tp pair_data) = merge_sort score_ge pair_data.
Proof.
  unfold classified. rewrite map_map. simpl. apply map_id.
Qed.

End Thresholds.

(** X17.  The possible threshold only labels rows: a run with another
    [threshold_possible] returns as well, with the same clusters, the same
    [dedup_cluster_id] column and the same scored pairs in the same order. *)
Theorem possible_threshold_irrelevant R df td tp tp' out :
  dedupe R df td tp = Ok out →
  ∃ out',
    dedupe R df td tp' = Ok out' ∧
    roster_out out' = roster_out out ∧ multi out' = multi out ∧
    map fst (pairs_df out') = map fst (pairs_df out).
Proof.
  intros (pair_data & clusters & Hs & Hne & Hc & ->)%Thresholds.dedupe_pairs.
  exists (Pipeline.output_of df (Pipeline.classified td tp' pair_data) clusters).
  split; [|split; [done|split; [done|]]].
  - apply Thresholds.dedupe_from_pairs; [done..|].
    unfold Pipeline.classified in *.
    by rewrite Thresholds.definite_pairs_classify in *.
  - simpl. by rewrite !Thresholds.classified_rows.
Qed.

Lemma possible_threshold_irrelevant_witness :
  ∃ out out',
    dedupe Difflib.ratio Examples.chain_roster 5 3 = Ok out ∧
    dedupe Difflib.ratio Examples.chain_roster 5 4 = Ok out' ∧
    roster_out out' = roster_out out.
Proof.
  eassert (dedupe Difflib.ratio Examples.chain_roster 5 3 = Ok _) as Hd
    by (vm_compute; reflexivity).
  destruct (possible_threshold_irrelevant _ _ _ _ 4 _ Hd) as (out' & Hd' & Hr & _).
  eexists _, out'. split; [exact Hd|]. split; [exact Hd'|exact Hr].
Defined.

(** X18.  A stricter definite threshold never merges more: two records that
    share a cluster in a run with the threshold [td'] share a cluster in any
    run with a threshold [td <= td']. *)
Theorem stricter_threshold_refines R df td td' tp tp' out out' clusters' r ms a b :
  dedupe R df td tp = Ok out → dedupe R df td' tp' = Ok out' → (td <= td')%Q →
  cluster_definite (length df) (definite_pairs (pairs_df out')) = Some clusters' →
  clusters' !! r = Some ms → a ∈ ms → b ∈ ms →
  ∃ clusters r0 ms0,
    cluster_definite (length df) (definite_pairs (pairs_df out)) = Some clusters ∧
    clusters !! r0 = Some ms0 ∧ a ∈ ms0 ∧ b ∈ ms0.
Proof.
  intros Hd Hd' Htd Hc' Hr Ha Hb.
  pose proof (Merging.entry_connected R df td' tp' out' clusters' r ms a b
                Hd' Hc' Hr Ha Hb) as Hconn.
  destruct (Pipeline.dedupe_inv R df td' tp' out' Hd') as (pd' & cl' & Hrun').
  pose proof (Pipeline.definite_valid R df td' tp' out' pd' cl' Hrun') as Hval'.
  destruct (Partition.cluster_definite_entries _ _ clusters' r ms Hval' Hc' Hr)
    as (_ & _ & Hlt).
  destruct (Batch.cluster_of_record R df td tp out a Hd (Hlt a Ha))
    as (clusters & ms0 & Hc & (r0 & Hr0 & Ha0) & Hmem & _).
  exists clusters, r0, ms0. split; [exact Hc|]. split; [exact Hr0|].
  split; [exact Ha0|]. apply Hmem. split; [by apply Hlt|].
  revert Hconn. apply Clusters.conn_mono; [intros; by apply Clusters.conn_base|].
  intros x y Hxy. apply Clusters.conn_edge.
  apply Thresholds.dedupe_pairs in Hd as (pd & c1 & Hs & _ & _ & ->).
  apply Thresholds.dedupe_pairs in Hd' as (pd2 & c2 & Hs2 & _ & _ & ->).
  rewrite Hs in Hs2. injection Hs2 as <-. simpl in *.
  unfold Pipeline.classified in *.
  rewrite Thresholds.definite_pairs_classify in *.
  apply list_elem_of_In, in_map_iff in Hxy as (row & Hrow & [Hin Hq]%filter_In).
  apply list_elem_of_In, in_map_iff. exists row. split; [done|].
  apply filter_In. split; [done|].
  apply Qle_bool_iff. apply Qle_bool_iff in Hq. lra.
Qed.

Lemma stricter_threshold_refines_witness :
  ∃ out clusters r0 ms0,
    dedupe Difflib.ratio Examples.chain_roster 5 3 = Ok out ∧
    cluster_definite 4 (definite_pairs (pairs_df out)) = Some clusters ∧
    clusters !! r0 = Some ms0 ∧ 0 ∈ ms0 ∧ 1 ∈ ms0.
Proof.
  eassert (dedupe Difflib.ratio Examples.chain_roster 5 3 = Ok _) as Hd
    by (vm_compute; reflexivity).
  eassert (dedupe Difflib.ratio Examples.chain_roster 7 3 = Ok _) as Hd'
    by (vm_compute; reflexivity).
  destruct (Batch.cluster_of_record _ _ _ _ _ 0 Hd')
    as (clusters' & ms & Hc' & (r & Hr & H0) & Hmem & _); [simpl; lia|].
  assert (1 ∈ ms) as H1.
  { apply Hmem. split; [simpl; lia|]. apply Clusters.conn_edge.
    apply list_elem_of_here. }
  destruct (stricter_threshold_refines _ _ _ _ _ _ _ _ clusters' r ms 0 1 Hd Hd')
    as (clusters & r0 & ms0 & Hc & Hr0 & Ha & Hb); [unfold Qle; simpl; lia|done..|].
  eexists _, clusters, r0, ms0. split; [exact Hd|]. by split_and!.
Defined.

(** ** The shape of a normalized name *)

Module NameShape.
Import NameProps.

Lemma normalize_name_chars_shape l :
  Forall out_char (normalize_name_chars l) ∧
  Py.strip (normalize_name_chars l) = normalize_name_chars l ∧
  Py.sub_ws false (normalize_name_chars l) = normalize_name_chars l.
Proof.
  unfold normalize_name_chars.
  set (x3 := Py.del_words honorifics None 0 _).
  set (y := Py.sub_class not_alnum_space x3).
  assert (Forall (fun c => Char.is_space c = false → out_char c) y) as Hy.
  { apply Forall_forall. intros c Hc%list_elem_of_In%in_map_iff.
    destruct Hc as (c0 & <- & _). unfold not_alnum_space.
    destruct (Char.is_alnum_lc c0) eqn:Ea; simpl; [by left|].
    destruct (Char.is_space c0) eqn:Es; simpl; [congruence|by right]. }
  split; [|split].
  - apply Forall_strip, Forall_sub_ws_out; [by right|done].
  - apply strip_idem.
  - apply single_spaced_fixed, single_spaced_rstrip.
    eapply single_spaced_lstrip, sub_ws_single_spaced.
Qed.

Lemma out_char_word c : out_char c → Char.is_word c = negb (Char.is_space c).
Proof.
  intros [H| ->]; [|done].
  by rewrite (alnum_is_word c H), (alnum_not_space c H).
Qed.

Lemma split_ws_cons_inv b l : ∃ first rest, Py.split_ws b l = first :: rest.
Proof.
  revert b. induction l as [|c r IH]; intros b; simpl; [by eexists _, _|].
  destruct (Char.is_space c); [destruct b|]; try (by eexists _, _); [apply IH|].
  destruct (Py.split_ws false r); by eexists _, _.
Qed.

Lemma split_ws_head l :
  Forall out_char l →
  ∃ rest, Py.split_ws false l = word_prefix l :: rest.
Proof.
  induction 1 as [|c r Hc _ (rest & IH)]; simpl; [by eexists|].
  rewrite (out_char_word c Hc).
  destruct (Char.is_space c); simpl; [by eexists|]. rewrite IH. by eexists.
Qed.

Lemma nohon_pieces alts l :
  Forall out_char l → ∀ b pw first rest,
  nohon alts pw l → Py.split_ws b l = first :: rest →
  (pw = false → first ≠ [] → first ∉ alts)
  ∧ Forall (fun p => p ≠ [] → p ∉ alts) rest.
Proof.
  induction 1 as [|c r Hc Hr IH]; intros b pw first rest Hh Hs.
  - simpl in Hs. injection Hs as <- <-. split; [done|constructor].
  - destruct Hh as [Hhead Htail]. simpl in Hs.
    pose proof (out_char_word c Hc) as Hw.
    destruct (Char.is_space c) eqn:Es; simpl in Hw; rewrite Hw in Htail.
    + destruct b.
      * destruct (IH true false first rest Htail Hs) as [H1 H2]. split; [|done].
        intros _. by apply H1.
      * injection Hs as <- <-. split; [done|].
        destruct (split_ws_cons_inv true r) as (f' & r' & E). rewrite E.
        destruct (IH true false f' r' Htail E) as [H1 H2].
        constructor; [by apply H1|done].
    + destruct (split_ws_head r Hr) as (rest' & E). rewrite E in Hs.
      injection Hs as <- <-.
      destruct (IH false true (word_prefix r) rest' Htail E) as [_ H2].
      split; [|done]. intros Hpw _.
      specialize (Hhead Hpw Hw). simpl in Hhead. by rewrite Hw in Hhead.
Qed.

End NameShape.

(** X19.  Whatever the input, a normalized name is made of the characters
    [a-z], [0-9] and the blank only, [strip] and the collapse of white space
    leave it unchanged (no blank at either end, no two blanks in a row), and
    each of its tokens is made of [a-z0-9]. *)
Theorem normalize_name_shape (s : string) :
  Forall NameProps.out_char (chars (normalize_name s)) ∧
  Py.strip (chars (normalize_name s)) = chars (normalize_name s) ∧
  Py.sub_ws false (chars (normalize_name s)) = chars (normalize_name s) ∧
  Forall (fun t => Forall (fun c => Char.is_alnum_lc c = true) (chars t))
    (name_tokens (normalize_name s)).
Proof.
  unfold normalize_name. rewrite chars_str.
  destruct (NameShape.normalize_name_chars_shape (chars s)) as (H1 & H2 & H3).
  split; [exact H1|]. split; [exact H2|]. split; [exact H3|].
  unfold name_tokens. rewrite chars_str.
  destruct (Tokens.name_tokens_chars_spec (normalize_name_chars (chars s)))
    as [Hne Hcat].
  apply Forall_forall. intros t Hin%list_elem_of_In%in_map_iff.
  destruct Hin as (l & <- & Hl). rewrite chars_str.
  apply Forall_forall. intros c Hc.
  assert (In c (concat (name_tokens_chars (normalize_name_chars (chars s))))) as Hin.
  { apply in_concat. exists l. split; [done|by apply list_elem_of_In]. }
  rewrite Hcat in Hin. apply filter_In in Hin as [Hin Hsp].
  apply list_elem_of_In in Hin. eapply Forall_forall in H1; [|exact Hin].
  destruct H1 as [?| ->]; [done|]. by vm_compute in Hsp.
Qed.

(** X20.  On a string of ASCII characters without underscore the honorifics
    are removed as whole tokens: no token of the normalized name is one of
    [dr], [md], [do], [prof], [mr], [mrs], [ms], [jr], [sr], [ii], [iii]. *)
Theorem normalize_name_no_honorific (s : string) :
  ascii_without_underscore s →
  Forall (fun t => chars t ∉ honorifics) (name_tokens (normalize_name s)).
Proof.
  intros Hs. unfold normalize_name, name_tokens. rewrite chars_str.
  destruct (normalize_name_chars_normal (chars s) Hs) as [Hc _ _ Hh].
  apply Forall_forall. intros t Hin%list_elem_of_In%in_map_iff.
  destruct Hin as (l & <- & Hl). rewrite chars_str.
  unfold name_tokens_chars in Hl. apply filter_In in Hl as [Hl Hne].
  destruct (NameShape.split_ws_cons_inv false (normalize_name_chars (chars s)))
    as (first & rest & E).
  destruct (NameShape.nohon_pieces honorifics _ Hc false false first rest Hh E)
    as [H1 H2].
  rewrite E in Hl. assert (l ≠ []) as Hl' by (by destruct l).
  destruct Hl as [<-|Hl]; [by apply H1|].
  apply list_elem_of_In in Hl. eapply Forall_forall in H2; [|exact Hl]. by apply H2.
Qed.

Lemma normalize_name_no_honorific_witness :
  Forall (fun t => chars t ∉ honorifics)
    (name_tokens (normalize_name "Prof. Mary-Ann O'Neil Jr., MD")).
Proof.
  apply normalize_name_no_honorific.
  unfold ascii_without_underscore. simpl. repeat constructor.
Defined.
